(** * scripts/build-types.ts: the path tree builder, the type resolver and
      the declaration emitter of obs-websocket-js, embedded in Rocq.

    The script turns the flat field descriptors of protocol.json (dotted
    paths such as [sceneItems.*.name], a declared type, documentation and,
    for request parameters, optionality) into a nested type tree and prints
    that tree as TypeScript declarations.

    Conventions of the embedding.
    - A JavaScript string is a [string]; every character the script looks
      for ([.], [*], [<], [>], newline) is ASCII.
    - A property bag ([Tree = Record<string, AnyType>]) is the list of its
      own properties in creation order.  Assigning to an existing key keeps
      its place, assigning to a new key appends.  Enumeration
      ([Object.keys], [Object.entries]) lists array-index keys first, in
      ascending numeric order, and then the other keys in creation order.
      Names that [Object.prototype] defines ([constructor], [__proto__], ...)
      are outside the model ([Js.prototype_names]).
    - A [throw] is the [Throw] result; the interpolated values of the
      message travel in the constructor of [Error].
    - The tree under construction is owned by the one call that builds it,
      so in-place updates are written as rebuilding the spine.  The caller's
      array of descriptors is shared, and is modelled in a store
      (module [Heap]). *)

From Stdlib Require Import String Ascii List ZArith Lia Bool PeanoNat.
From Stdlib Require Import Permutation Sorted DecimalString.
From stdpp Require Import gmap strings.
Import ListNotations.

Local Open Scope Z_scope.
Local Open Scope nat_scope.

#[local] Arguments String.append !_ _ : simpl nomatch.

(** ** JavaScript string primitives used by the script *)

Module Js.

(** [s.match(/\./g)?.length ?? 0]: the number of dots in [s]. *)
Fixpoint count_dots (s : string) : nat :=
  match s with
  | EmptyString => 0
  | String c s' => (if Ascii.eqb c "."%char then 1 else 0) + count_dots s'
  end.

(** [s.split(sep)] for a one-character separator: never the empty list,
    the split of the empty string is the list of the empty string. *)
Fixpoint split (sep : ascii) (s : string) : list string :=
  match s with
  | EmptyString => [EmptyString]
  | String c s' =>
      if Ascii.eqb c sep then EmptyString :: split sep s'
      else match split sep s' with
           | [] => [String c EmptyString]
           | w :: ws => String c w :: ws
           end
  end.

(** [parts.pop()]: the array without its last element, and that element
    ([None] is JavaScript's [undefined], on the empty array). *)
Fixpoint pop {A : Type} (l : list A) : list A * option A :=
  match l with
  | [] => ([], None)
  | [x] => ([], Some x)
  | x :: l' => let '(front, lst) := pop l' in (x :: front, lst)
  end.

(** [lines.join(sep)]. *)
Fixpoint join (sep : string) (ls : list string) : string :=
  match ls with
  | [] => EmptyString
  | [x] => x
  | x :: ls' => x +:+ sep +:+ join sep ls'
  end.

(** [s.startsWith(p)]. *)
Definition startsWith (s p : string) : bool := String.prefix p s.

(** [s.lastIndexOf(c)] for a character [c]: [-1] when [c] is absent. *)
Fixpoint lastIndexOf_from (c : ascii) (s : string) (i : Z) (found : Z) : Z :=
  match s with
  | EmptyString => found
  | String d s' =>
      lastIndexOf_from c s' (i + 1)%Z (if Ascii.eqb d c then i else found)
  end.

Definition lastIndexOf (c : ascii) (s : string) : Z :=
  lastIndexOf_from c s 0%Z (-1)%Z.

(** [s.substring(a, b)]: both indices are clamped to [0 .. length s], and
    swapped when [a > b]. *)
Definition clamp (s : string) (i : Z) : nat :=
  Nat.min (Z.to_nat i) (String.length s).

Definition substring (s : string) (a b : Z) : string :=
  let a' := clamp s a in
  let b' := clamp s b in
  let lo := Nat.min a' b' in
  let hi := Nat.max a' b' in
  String.substring lo (hi - lo) s.

(** A string is truthy when it is not empty. *)
Definition truthy (s : string) : bool :=
  match s with EmptyString => false | _ => true end.

(** [hay.includes(needle)]. *)
Fixpoint includes (hay needle : string) : bool :=
  String.prefix needle hay
  || match hay with
     | EmptyString => false
     | String _ hay' => includes hay' needle
     end.

(** Array-index property keys: the canonical decimal numerals below
    [2^32 - 1].  These are the keys a JavaScript object enumerates first. *)
Definition digit (c : ascii) : option N :=
  let n := N_of_ascii c in
  if (48 <=? n)%N && (n <=? 57)%N then Some (n - 48)%N else None.

Fixpoint digits (s : string) (acc : N) : option N :=
  match s with
  | EmptyString => Some acc
  | String c s' =>
      match digit c with
      | Some d => digits s' (10 * acc + d)%N
      | None => None
      end
  end.

Definition array_index (s : string) : option N :=
  match s with
  | EmptyString => None
  | String c s' =>
      if Ascii.eqb c "0"%char && truthy s' then None
      else if (10 <? String.length s)%nat then None
      else match digits s 0%N with
           | Some n => if (n <? 4294967295)%N then Some n else None
           | None => None
           end
  end.

Section Entries.
Context {V : Type}.

Fixpoint insert_index (n : N) (kv : string * V) (l : list (N * (string * V)))
  : list (N * (string * V)) :=
  match l with
  | [] => [(n, kv)]
  | (m, kv') :: l' =>
      if (n <? m)%N then (n, kv) :: l
      else (m, kv') :: insert_index n kv l'
  end.

Fixpoint index_entries (l : list (string * V)) : list (N * (string * V)) :=
  match l with
  | [] => []
  | kv :: l' =>
      match array_index (fst kv) with
      | Some n => insert_index n kv (index_entries l')
      | None => index_entries l'
      end
  end.

Fixpoint named_entries (l : list (string * V)) : list (string * V) :=
  match l with
  | [] => []
  | kv :: l' =>
      match array_index (fst kv) with
      | Some _ => named_entries l'
      | None => kv :: named_entries l'
      end
  end.

(** [Object.entries(o)] on the own properties [l] of [o]. *)
Definition entries (l : list (string * V)) : list (string * V) :=
  List.map snd (index_entries l) ++ named_entries l.

(** [Object.keys(o)]. *)
Definition keys (l : list (string * V)) : list string :=
  List.map fst (entries l).

(** [o[key]]: [None] when [o] has no own property [key] ([key in o] is
    false). *)
Fixpoint get (key : string) (l : list (string * V)) : option V :=
  match l with
  | [] => None
  | (k, v) :: l' => if String.eqb k key then Some v else get key l'
  end.

(** [o[key] = v]. *)
Fixpoint set (key : string) (v : V) (l : list (string * V)) : list (string * V) :=
  match l with
  | [] => [(key, v)]
  | (k, v') :: l' =>
      if String.eqb k key then (k, v) :: l' else (k, v') :: set key v l'
  end.
End Entries.

(** The names every object inherits from [Object.prototype].  For these
    [key in o] holds of an object that has no such property of its own, and
    assigning to [__proto__] replaces the prototype.  The property bags of
    the model hold own properties only, so the statements about the shape
    and the order of a built tree are made for paths without these names. *)
Definition prototype_names : list string :=
  ["constructor"; "__defineGetter__"; "__defineSetter__"; "hasOwnProperty";
   "__lookupGetter__"; "__lookupSetter__"; "isPrototypeOf";
   "propertyIsEnumerable"; "toString"; "valueOf"; "__proto__"; "toLocaleString"].

Definition is_prototype_name (s : string) : bool :=
  existsb (String.eqb s) prototype_names.

(** [a.sort(compareFn)]: the sort of the language is stable; [x] goes
    before [y] when [compareFn x y <= 0] and [x] came first. *)
Section Sort.
Context {A : Type} (compareFn : A -> A -> Z).

Fixpoint sort_insert (x : A) (l : list A) : list A :=
  match l with
  | [] => [x]
  | y :: l' =>
      if (compareFn x y <=? 0)%Z then x :: l else y :: sort_insert x l'
  end.

Fixpoint sort (l : list A) : list A :=
  match l with
  | [] => []
  | x :: l' => sort_insert x (sort l')
  end.
End Sort.

End Js.

(** ** protocol.json records *)

Record OBSRequestField := {
  req_valueName : string;
  req_valueType : string;
  req_valueDescription : string;
  valueRestrictions : option string;       (* null | string *)
  valueOptional : bool;
  valueOptionalBehavior : option string;   (* null | string *)
}.

Record OBSResponseField := {
  resp_valueName : string;
  resp_valueType : string;
  resp_valueDescription : string;
}.

(** [OBSRequestField | OBSResponseField].  The static types are erased when
    the script runs: a descriptor is a request field exactly when the parsed
    JSON object has a [valueOptional] member, whatever list it sits in. *)
Inductive Field :=
| RequestField (f : OBSRequestField)
| ResponseField (f : OBSResponseField).

Definition valueName (f : Field) : string :=
  match f with
  | RequestField r => req_valueName r
  | ResponseField r => resp_valueName r
  end.

Definition valueType (f : Field) : string :=
  match f with
  | RequestField r => req_valueType r
  | ResponseField r => resp_valueType r
  end.

Definition valueDescription (f : Field) : string :=
  match f with
  | RequestField r => req_valueDescription r
  | ResponseField r => resp_valueDescription r
  end.

(** ['valueOptional' in val]. *)
Definition isObsRequestField (val : Field) : bool :=
  match val with
  | RequestField _ => true
  | ResponseField _ => false
  end.

Record OBSEvent := {
  ev_description : string;
  eventType : string;
  eventSubscription : string;
  ev_complexity : Z;
  ev_rpcVersion : string;
  ev_deprecated : bool;
  ev_initialVersion : string;
  ev_category : string;
  dataFields : list Field;
}.

Record OBSRequest := {
  description : string;
  requestType : string;
  complexity : Z;
  rpcVersion : string;
  deprecated : bool;
  initialVersion : string;
  category : string;
  requestFields : list Field;
  responseFields : list Field;
}.

(** ** The type tree *)

Inductive PrimitiveKind := Kstring | Knumber | Kboolean.

(** [BaseType]: both members may be missing ([None] is [undefined]). *)
Record BaseType := {
  optional : option bool;
  jsdoc : option string;
}.

Definition no_base : BaseType := {| optional := None; jsdoc := None |}.

#[warnings="-register-all"]
Inductive AnyType :=
| PrimitiveType (type : PrimitiveKind) (base : BaseType)
| JsonValueType (properties : list (string * AnyType)) (base : BaseType)
| ObjectType (properties : list (string * AnyType)) (base : BaseType)
| ArrayType (items : AnyType) (base : BaseType).

Abbreviation Tree := (list (string * AnyType)).

Definition base_of (t : AnyType) : BaseType :=
  match t with
  | PrimitiveType _ b | JsonValueType _ b | ObjectType _ b | ArrayType _ b => b
  end.

Definition with_base (b : BaseType) (t : AnyType) : AnyType :=
  match t with
  | PrimitiveType k _ => PrimitiveType k b
  | JsonValueType p _ => JsonValueType p b
  | ObjectType p _ => ObjectType p b
  | ArrayType i _ => ArrayType i b
  end.

Definition is_object (t : AnyType) : bool :=
  match t with ObjectType _ _ => true | _ => false end.

(** The induction principle that reaches the nodes inside property bags. *)
Section AnyType_ind.
Variable P : AnyType -> Prop.
Hypothesis Hprim : forall k b, P (PrimitiveType k b).
Hypothesis Hjson : forall ps b, Forall (fun kv => P (snd kv)) ps -> P (JsonValueType ps b).
Hypothesis Hobj : forall ps b, Forall (fun kv => P (snd kv)) ps -> P (ObjectType ps b).
Hypothesis Harr : forall i b, P i -> P (ArrayType i b).

Fixpoint AnyType_nested_ind (t : AnyType) : P t :=
  let fix go (ps : Tree) : Forall (fun kv => P (snd kv)) ps :=
    match ps with
    | [] => @List.Forall_nil _ _
    | kv :: ps' => @List.Forall_cons _ _ kv ps' (AnyType_nested_ind (snd kv)) (go ps')
    end in
  match t with
  | PrimitiveType k b => Hprim k b
  | JsonValueType ps b => Hjson ps b (go ps)
  | ObjectType ps b => Hobj ps b (go ps)
  | ArrayType i b => Harr i b (AnyType_nested_ind i)
  end.
End AnyType_ind.

(** ** Errors *)

(** One constructor per [throw] of the script, carrying what its message
    interpolates; [RangeError] is the engine's own error when the call stack
    is exhausted. *)
Inductive Error :=
| UnexpectedStarKey (currentNode : AnyType) (item : Field)
| UnexpectedCurrentType (currentNode : AnyType) (item : Field) (nodeName : string)
| LastStarHandler (currentNode : AnyType) (item : Field)
| NotAnObject (currentNode : AnyType) (item : Field)
| UnknownType (inType : string)
| RangeError.

(** The first line of the error's message.  The messages of the four
    structural errors go on with JSON dumps of [currentNode] and [item];
    the message of [UnknownType] is this one line. *)
Definition headline (e : Error) : string :=
  match e with
  | UnexpectedStarKey _ _ => "Unexpected object already exists for * key"
  | UnexpectedCurrentType _ _ _ => "Unexpected current object type"
  | LastStarHandler _ _ => "Need to add last * handler"
  | NotAnObject _ _ => "Current node isn't an object"
  | UnknownType inType => "Unknown type: " +:+ inType
  | RangeError => "Maximum call stack size exceeded"
  end.

(** The descriptor an error reports, when it reports one. *)
Definition reported_item (e : Error) : option Field :=
  match e with
  | UnexpectedStarKey _ item
  | UnexpectedCurrentType _ item _
  | LastStarHandler _ item
  | NotAnObject _ item => Some item
  | UnknownType _ | RangeError => None
  end.

Inductive result (A : Type) :=
| Ok (a : A)
| Throw (e : Error).
Arguments Ok {A} a.
Arguments Throw {A} e.

#[global] Instance result_ret : MRet result := fun A a => Ok a.

#[global] Instance result_bind : MBind result := fun A B k r =>
  match r with
  | Ok a => k a
  | Throw e => Throw e
  end.

Definition returns {A : Type} (r : result A) : bool :=
  match r with Ok _ => true | Throw _ => false end.

Definition throws {A : Type} (r : result A) : bool := negb (returns r).

(** ** Type resolver *)

Definition ARRAY_PREFIX : string := "Array<".

(** [getBaseType].  The recursion is on the text between [Array<] and the
    last [>]; when there is no [>], [substring(6, -1)] is [Array<] again and
    the function calls itself until the stack is exhausted.  [depth] bounds
    the call stack. *)
Fixpoint getBaseType_depth (depth : nat) (inType : string) : result AnyType :=
  if Js.startsWith inType ARRAY_PREFIX then
    match depth with
    | O => Throw RangeError
    | S depth' =>
        let subType :=
          Js.substring inType (Z.of_nat (String.length ARRAY_PREFIX))
                       (Js.lastIndexOf ">"%char inType) in
        items ← getBaseType_depth depth' subType;
        Ok (ArrayType items no_base)
    end
  else if String.eqb inType "Boolean" then Ok (PrimitiveType Kboolean no_base)
  else if String.eqb inType "String" then Ok (PrimitiveType Kstring no_base)
  else if String.eqb inType "Number" then Ok (PrimitiveType Knumber no_base)
  else if String.eqb inType "Object" then Ok (ObjectType [] no_base)
  else if String.eqb inType "Any" then Ok (JsonValueType [] no_base)
  else Throw (UnknownType inType).

Definition getBaseType (inType : string) : result AnyType :=
  getBaseType_depth (String.length inType) inType.

(** [type.jsdoc += text]. *)
Definition jsdoc_append (b : BaseType) (text : string) : BaseType :=
  {| optional := optional b;
     jsdoc := Some (match jsdoc b with Some d => d | None => "undefined" end +:+ text) |}.

Definition nonempty (o : option string) : option string :=
  match o with
  | Some s => if Js.truthy s then Some s else None
  | None => None
  end.

Definition resolveType (field : Field) : result AnyType :=
  type ← getBaseType (valueType field);
  let b := {| optional := optional (base_of type);
              jsdoc := Some (valueDescription field) |} in
  match field with
  | RequestField r =>
      let b := {| optional := Some (valueOptional r); jsdoc := jsdoc b |} in
      let b := match nonempty (valueRestrictions r) with
               | Some restrictions =>
                   jsdoc_append b (String "010"%char "@restrictions " +:+ restrictions)
               | None => b
               end in
      let b := match nonempty (valueOptionalBehavior r) with
               | Some behavior =>
                   jsdoc_append b (String "010"%char "@defaultValue " +:+ behavior)
               | None => b
               end in
      Ok (with_base b type)
  | ResponseField _ => Ok (with_base b type)
  end.

(** ** Declaration emitter *)

Definition newline : string := String "010"%char EmptyString.
Definition tab : string := String "009"%char EmptyString.

Definition formatJsDoc (jsdoc : list string) : string :=
  Js.join newline
          (["/**"] ++ List.map (fun s => " * " +:+ s) jsdoc ++ [" */"]).

Definition kind_name (k : PrimitiveKind) : string :=
  match k with
  | Kstring => "string"
  | Knumber => "number"
  | Kboolean => "boolean"
  end.

(** The lines one property contributes in [stringifyObject]: its
    documentation block, when [jsdoc] is a non-empty string, and the field. *)
Definition property_lines (key : string) (typeDef : BaseType) (type : string)
  : list string :=
  let separator := if default false (optional typeDef) then "?:" else ":" in
  match jsdoc typeDef with
  | Some doc =>
      if Js.truthy doc then [formatJsDoc (Js.split "010"%char doc)] else []
  | None => []
  end ++ [key +:+ separator +:+ " " +:+ type +:+ ";"].

(** [stringifyObject], on the properties with their types already rendered
    (the recursive calls of [stringifyTypes] are made on the stored list, and
    the enumeration order is applied to the outcome). *)
Definition stringifyObject (rendered : list (string * (BaseType * string))) : string :=
  if (List.length (Js.keys rendered) =? 0)%nat then "JsonObject"
  else
    Js.join newline
      (["{"]
       ++ flat_map (fun '(key, (typeDef, type)) => property_lines key typeDef type)
                   (Js.entries rendered)
       ++ ["}"]).

Fixpoint stringifyTypes (inputTypes : AnyType) : string :=
  match inputTypes with
  | ObjectType properties _ =>
      let fix render (ps : Tree) : list (string * (BaseType * string)) :=
        match ps with
        | [] => []
        | (key, typeDef) :: ps' =>
            (key, (base_of typeDef, stringifyTypes typeDef)) :: render ps'
        end in
      stringifyObject (render properties)
  | ArrayType items _ =>
      let subtype := stringifyTypes items in
      if String.eqb subtype "JsonObject" then "JsonObject[]"
      else "Array<" +:+ subtype +:+ ">"
  | JsonValueType _ _ => "JsonValue"
  | PrimitiveType type _ => kind_name type
  end.

Definition render_properties (ps : Tree) : list (string * (BaseType * string)) :=
  List.map (fun kv => (fst kv, (base_of (snd kv), stringifyTypes (snd kv)))) ps.

(** ** Path tree builder *)

Definition root : AnyType := ObjectType [] no_base.

(** The comparator of the depth sort. *)
Definition by_dots (a b : Field) : Z :=
  (Z.of_nat (Js.count_dots (valueName a)) - Z.of_nat (Js.count_dots (valueName b)))%Z.

(** The container made for a missing intermediate segment: an array of
    objects when the next intermediate segment is the wildcard. *)
Definition new_child (next : option string) : AnyType :=
  match next with
  | Some n =>
      if String.eqb n "*" then ArrayType (ObjectType [] no_base) no_base
      else ObjectType [] no_base
  | None => ObjectType [] no_base
  end.

Section Item.
Variable item : Field.
Variable lastPart : string.

(** What follows the loop over [parts]: the two checks and the
    assignment of the resolved leaf. *)
Definition assign_leaf (currentNode : AnyType) : result AnyType :=
  if String.eqb lastPart "*" then Throw (LastStarHandler currentNode item)
  else
    match currentNode with
    | ObjectType properties b =>
        leaf ← resolveType item;
        Ok (ObjectType (Js.set lastPart leaf properties) b)
    | _ => Throw (NotAnObject currentNode item)
    end.

(** [parts.forEach((nodeName, i) => ...)]: the result is [currentNode]
    as it is once the rest of the item has been processed below it.
    After the wildcard branch has moved [currentNode] to the array's
    element the callback goes on with the same [nodeName]. *)
Fixpoint walk (parts : list string) (currentNode : AnyType) : result AnyType :=
  match parts with
  | [] => assign_leaf currentNode
  | nodeName :: rest =>
      let visit (node : AnyType) : result AnyType :=
        match node with
        | ObjectType properties b =>
            let child :=
              match Js.get nodeName properties with
              | Some c => c
              | None => new_child (head rest)
              end in
            child' ← walk rest child;
            Ok (ObjectType (Js.set nodeName child' properties) b)
        | _ => Throw (UnexpectedCurrentType node item nodeName)
        end in
      if String.eqb nodeName "*" then
        match currentNode with
        | ArrayType (ObjectType _ _ as items) b =>
            items' ← visit items;
            Ok (ArrayType items' b)
        | _ => Throw (UnexpectedStarKey currentNode item)
        end
      else visit currentNode
  end.
End Item.

(** The body of [items.forEach(item => ...)]. *)
Definition add_item (item : Field) (tree : AnyType) : result AnyType :=
  let '(parts, lastPart) := Js.pop (Js.split "."%char (valueName item)) in
  walk item (default "undefined" lastPart) parts tree.

Fixpoint forEach {A S : Type} (f : A -> S -> result S) (l : list A) (s : S)
  : result S :=
  match l with
  | [] => Ok s
  | x :: l' => s' ← f x s; forEach f l' s'
  end.

Definition unflattenAndResolveTypes (inputItems : list Field) : result AnyType :=
  let items := Js.sort by_dots inputItems in
  forEach add_item items root.

(** ** Generators of the interface bodies *)

Definition event_line (ev : OBSEvent) : result string :=
  if (List.length (dataFields ev) =? 0)%nat then Ok (eventType ev +:+ ": undefined;")
  else
    tree ← unflattenAndResolveTypes (dataFields ev);
    Ok (eventType ev +:+ ": " +:+ stringifyTypes tree +:+ ";").

Definition generateObsEventTypes (events : list OBSEvent) : result string :=
  lines ← mapM event_line events; Ok (Js.join newline lines).

Definition request_line (req : OBSRequest) : result string :=
  if (List.length (requestFields req) =? 0)%nat then Ok (requestType req +:+ ": never;")
  else
    tree ← unflattenAndResolveTypes (requestFields req);
    Ok (requestType req +:+ ": " +:+ stringifyTypes tree +:+ ";").

Definition generateObsRequestTypes (requests : list OBSRequest) : result string :=
  lines ← mapM request_line requests; Ok (Js.join newline lines).

Definition response_line (req : OBSRequest) : result string :=
  if (List.length (responseFields req) =? 0)%nat
  then Ok (tab +:+ requestType req +:+ ": undefined;")
  else
    tree ← unflattenAndResolveTypes (responseFields req);
    Ok (requestType req +:+ ": " +:+ stringifyTypes tree +:+ ";").

Definition generateObsResponseTypes (requests : list OBSRequest) : result string :=
  lines ← mapM response_line requests; Ok (Js.join newline lines).

(** ** The caller's array: the builder over a store

    [unflattenAndResolveTypes] receives a reference to the caller's array,
    whose elements are references to the descriptor records.  The store
    holds both kinds of objects; a computation reads and writes it and may
    throw.  [None] stands for a store that lacks an object a reference
    points to, which no JavaScript heap does. *)

Module Heap.

Abbreviation loc := nat.

Record store := {
  records : gmap loc Field;
  arrays : gmap loc (list loc);
}.

Definition M (A : Type) : Type := store -> option (result A * store).

Definition ret {A : Type} (a : A) : M A := fun σ => Some (Ok a, σ).

Definition throw {A : Type} (e : Error) : M A := fun σ => Some (Throw e, σ).

Definition bind {A B : Type} (m : M A) (k : A -> M B) : M B := fun σ =>
  match m σ with
  | Some (Ok a, σ') => k a σ'
  | Some (Throw e, σ') => Some (Throw e, σ')
  | None => None
  end.

Notation "x ←ₕ m ; k" := (bind m (fun x => k))
  (at level 20, m at level 100, k at level 200, only parsing).

(** Reading an array and reading a record. *)
Definition read_array (a : loc) : M (list loc) := fun σ =>
  match arrays σ !! a with
  | Some refs => Some (Ok refs, σ)
  | None => None
  end.

Definition read_record (r : loc) : M Field := fun σ =>
  match records σ !! r with
  | Some f => Some (Ok f, σ)
  | None => None
  end.

Fixpoint read_records (refs : list loc) : M (list (loc * Field)) :=
  match refs with
  | [] => ret []
  | r :: refs' =>
      f ←ₕ read_record r;
      fs ←ₕ read_records refs';
      ret ((r, f) :: fs)
  end.

(** [a.slice(0)]: a new array with the same elements. *)
Definition slice (a : loc) : M loc := fun σ =>
  match arrays σ !! a with
  | Some refs =>
      let a' := fresh (dom (arrays σ)) in
      Some (Ok a', {| records := records σ; arrays := <[a' := refs]> (arrays σ) |})
  | None => None
  end.

(** [a.sort(compareFn)]: sorts [a] in place; the comparator reads the
    records the elements point to. *)
Definition sort (a : loc) (compareFn : Field -> Field -> Z) : M unit :=
  refs ←ₕ read_array a;
  items ←ₕ read_records refs;
  let sorted := Js.sort (fun x y => compareFn (snd x) (snd y)) items in
  fun σ =>
    Some (Ok tt, {| records := records σ;
                    arrays := <[a := List.map fst sorted]> (arrays σ) |}).

(** [a.forEach(f)], where the callback updates the tree it closes over. *)
Fixpoint forEach_from (f : Field -> AnyType -> result AnyType)
         (refs : list loc) (tree : AnyType) : M AnyType :=
  match refs with
  | [] => ret tree
  | r :: refs' =>
      item ←ₕ read_record r;
      match f item tree with
      | Ok tree' => forEach_from f refs' tree'
      | Throw e => throw e
      end
  end.

Definition forEach (a : loc) (f : Field -> AnyType -> result AnyType)
           (tree : AnyType) : M AnyType :=
  refs ←ₕ read_array a;
  forEach_from f refs tree.

Definition unflattenAndResolveTypes (inputItems : loc) : M AnyType :=
  items ←ₕ slice inputItems;
  _ ←ₕ sort items by_dots;
  forEach items add_item root.

(** The descriptors an array of the store lists. *)
Definition contents (σ : store) (a : loc) : option (list Field) :=
  refs ← arrays σ !! a; mapM (fun r => records σ !! r) refs.

End Heap.

(** ** Vocabulary of the statements *)

(** The segments of a descriptor's path. *)
Definition segments (f : Field) : list string := Js.split "."%char (valueName f).

(** The path of the container a descriptor's leaf goes into, and the name
    of the leaf. *)
Definition parent_path (f : Field) : list string := removelast (segments f).
Definition leaf_name (f : Field) : string := List.last (segments f) EmptyString.

(** No segment of the path is a name of [Object.prototype]. *)
Definition plain_path (f : Field) : bool :=
  forallb (fun s => negb (Js.is_prototype_name s)) (segments f).

(** The descriptor [f] with another declared type. *)
Definition with_type (t : string) (f : Field) : Field :=
  match f with
  | RequestField r =>
      RequestField {| req_valueName := req_valueName r;
                      req_valueType := t;
                      req_valueDescription := req_valueDescription r;
                      valueRestrictions := valueRestrictions r;
                      valueOptional := valueOptional r;
                      valueOptionalBehavior := valueOptionalBehavior r |}
  | ResponseField r =>
      ResponseField {| resp_valueName := resp_valueName r;
                       resp_valueType := t;
                       resp_valueDescription := resp_valueDescription r |}
  end.

(** What [resolveType] writes on the node that [getBaseType] returned. *)
Definition annotations (field : Field) : BaseType :=
  match field with
  | RequestField r =>
      {| optional := Some (valueOptional r);
         jsdoc :=
           Some (req_valueDescription r
                 +:+ match nonempty (valueRestrictions r) with
                     | Some restrictions =>
                         String "010"%char "@restrictions " +:+ restrictions
                     | None => EmptyString
                     end
                 +:+ match nonempty (valueOptionalBehavior r) with
                     | Some behavior =>
                         String "010"%char "@defaultValue " +:+ behavior
                     | None => EmptyString
                     end) |}
  | ResponseField r =>
      {| optional := None; jsdoc := Some (resp_valueDescription r) |}
  end.

(** The declared types that [getBaseType] knows, [Array<...>] apart. *)
Definition base_vocabulary : list string :=
  ["Boolean"; "String"; "Number"; "Object"; "Any"].

(** The number of dots of a descriptor's path: the key of the depth sort. *)
Definition depth (f : Field) : nat := Js.count_dots (valueName f).

Definition shallower (a b : Field) : Prop := depth a <= depth b.

(** The names of the own properties of a bag, in creation order. *)
Definition names (properties : Tree) : list string := List.map fst properties.

(** The three moves of one round of the loop of [walk]: [enter] is the node
    whose properties the round looks at (the element of the array for the
    wildcard, [None] when the wildcard meets no array of objects),
    [child_of] the node the round moves to, and [rebuild] the node the round
    started from once that child has been updated. *)
Definition enter (segment : string) (node : AnyType) : option AnyType :=
  if String.eqb segment "*" then
    match node with
    | ArrayType (ObjectType _ _ as items) _ => Some items
    | _ => None
    end
  else Some node.

Definition child_of (segment : string) (rest : list string) (properties : Tree)
  : AnyType :=
  match Js.get segment properties with
  | Some c => c
  | None => new_child (head rest)
  end.

Definition rebuild (segment : string) (node element : AnyType) : AnyType :=
  if String.eqb segment "*" then ArrayType element (base_of node) else element.

(** Where a segment leads from a node that exists, as the loop of [walk]
    moves: to the property that has the segment's name, of the node that
    [enter] gives. *)
Definition nav (segment : string) (node : AnyType) : option AnyType :=
  match enter segment node with
  | Some (ObjectType properties _) => Js.get segment properties
  | _ => None
  end.

Fixpoint reach (path : list string) (node : AnyType) : option AnyType :=
  match path with
  | [] => Some node
  | segment :: path' =>
      match nav segment node with
      | Some child => reach path' child
      | None => None
      end
  end.

(** No node of the tree has its [optional] member set. *)
Definition unmarked (b : BaseType) : bool :=
  match optional b with
  | Some _ => false
  | None => true
  end.

Fixpoint never_optional (t : AnyType) : bool :=
  unmarked (base_of t)
  && match t with
     | PrimitiveType _ _ => true
     | JsonValueType properties _ | ObjectType properties _ =>
         (fix all (ps : Tree) : bool :=
            match ps with
            | [] => true
            | (_, typeDef) :: ps' => never_optional typeDef && all ps'
            end) properties
     | ArrayType items _ => never_optional items
     end.

(** A function on the values of a property bag, on one property and on one
    property with its array index. *)
Definition on_value {V W : Type} (g : V -> W) (kv : string * V) : string * W :=
  (fst kv, g (snd kv)).

Definition on_indexed_value {V W : Type} (g : V -> W) (e : N * (string * V))
  : N * (string * W) :=
  (fst e, on_value g (snd e)).

(** A node under which no property has been created. *)
Definition no_properties (t : AnyType) : bool :=
  match t with
  | ObjectType (_ :: _) _ => false
  | ArrayType (ObjectType (_ :: _) _) _ => false
  | _ => true
  end.

(** [x] occurs in [l] and a [y] follows it. *)
Definition before {A : Type} (x y : A) (l : list A) : Prop :=
  exists l1 l2 l3, l = l1 ++ x :: l2 ++ y :: l3.

(** The rendering of the entity that has the descriptors [fs]. *)
Definition render_entity (fs : list Field) : result string :=
  tree ← unflattenAndResolveTypes fs; Ok (stringifyTypes tree).

(** ** Concrete descriptors used as examples *)

Module Scenario.

Definition request (name type : string) (opt : bool) : Field :=
  RequestField {| req_valueName := name;
                  req_valueType := type;
                  req_valueDescription := EmptyString;
                  valueRestrictions := None;
                  valueOptional := opt;
                  valueOptionalBehavior := None |}.

Definition response (name type : string) : Field :=
  ResponseField {| resp_valueName := name;
                   resp_valueType := type;
                   resp_valueDescription := EmptyString |}.

(** The nested-array scenario. *)
Definition nested_array : list Field :=
  [request "items.*.name" "String" false; request "items.*.count" "Number" true].

Definition leaf (k : PrimitiveKind) (opt : bool) : AnyType :=
  PrimitiveType k {| optional := Some opt; jsdoc := Some EmptyString |}.

(** The tree the scenario asks for: the leaves sit in the element object. *)
Definition nested_array_expected : AnyType :=
  ObjectType
    [("items",
      ArrayType
        (ObjectType [("name", leaf Kstring false); ("count", leaf Knumber true)] no_base)
        no_base)]
    no_base.

(** The tree the builder returns: the element object has one property,
    named [*], and the leaves sit in that property. *)
Definition nested_array_built : AnyType :=
  ObjectType
    [("items",
      ArrayType
        (ObjectType
           [("*",
             ObjectType [("name", leaf Kstring false); ("count", leaf Knumber true)]
                        no_base)]
           no_base)
        no_base)]
    no_base.

(** The trailing-wildcard scenario. *)
Definition trailing_wildcard : list Field :=
  [response "a" "String"; response "b.c" "Number"; response "b.*" "String"].

(** Two orders of the same two descriptors, siblings of different parents. *)
Definition order_ab : list Field := [response "a.x" "String"; response "b.y" "String"].
Definition order_ba : list Field := [response "b.y" "String"; response "a.x" "String"].

(** Two siblings of one parent. *)
Definition same_parent : list Field :=
  [response "p.y" "String"; response "q" "Number"; response "p.x" "String"].

(** The tree of [same_parent]: [q] is shallower and goes first; under [p],
    [y] was given before [x]. *)
Definition same_parent_tree : AnyType :=
  let leaf k := PrimitiveType k {| optional := None; jsdoc := Some EmptyString |} in
  ObjectType
    [("q", leaf Knumber);
     ("p", ObjectType [("y", leaf Kstring); ("x", leaf Kstring)] no_base)]
    no_base.

(** A leaf and a path below it. *)
Definition leaf_then_below : list Field :=
  [response "foo.bar" "Number"; response "foo" "String"].

(** A descriptor of a response list that has the members of a request
    parameter. *)
Definition optional_response : OBSRequest :=
  {| description := EmptyString;
     requestType := "GetVersion";
     complexity := 1;
     rpcVersion := "1";
     deprecated := false;
     initialVersion := "5.0.0";
     category := "general";
     requestFields := [];
     responseFields := [request "obsVersion" "String" true] |}.

Definition plain_response : Field :=
  ResponseField {| resp_valueName := "obsVersion";
                   resp_valueType := "String";
                   resp_valueDescription := "Current OBS Studio version" |}.

Definition no_data_event : OBSEvent :=
  {| ev_description := EmptyString;
     eventType := "ExitStarted";
     eventSubscription := "EventSubscription::General";
     ev_complexity := 1;
     ev_rpcVersion := "1";
     ev_deprecated := false;
     ev_initialVersion := "5.0.0";
     ev_category := "general";
     dataFields := [] |}.

Definition no_data_request : OBSRequest :=
  {| description := EmptyString;
     requestType := "StartStream";
     complexity := 1;
     rpcVersion := "1";
     deprecated := false;
     initialVersion := "5.0.0";
     category := "stream";
     requestFields := [];
     responseFields := [] |}.

Definition settings_leaf : Field :=
  ResponseField {| resp_valueName := "inputSettings";
                   resp_valueType := "Object";
                   resp_valueDescription := "Object of settings" |}.

Definition misspelt : Field :=
  ResponseField {| resp_valueName := "sceneName";
                   resp_valueType := "Strnig";
                   resp_valueDescription := "Name of the scene" |}.

(** A store: the caller's array 0 lists the records 10 and 11, the deeper
    path first. *)
Definition caller_store : Heap.store :=
  {| Heap.records := {[ 10 := response "foo.bar" "Number"; 11 := response "baz" "String" ]};
     Heap.arrays := {[ 0 := [10; 11] ]} |}.

End Scenario.

(** ** The rest of the script: the fix of the protocol, the enums and the
       call and listener overrides *)

(** [`${n}`] for a number.  The numbers of protocol.json that the script
    prints (complexity, enum values) are integers, far below [10^21], and
    print in decimal. *)
Definition number_text (n : Z) : string := NilZero.string_of_int (Z.to_int n).

(** [enumValue: number | string]. *)
Inductive EnumValue :=
| NumberValue (n : Z)
| StringValue (s : string).


Record EnumIdentifier := {
  enum_description : string;
  enumIdentifier : string;
  enum_rpcVersion : string;
  enum_deprecated : bool;
  enum_initialVersion : string;
  enumValue : EnumValue;
}.

(** An element of [protocol.enums]. *)
Record EnumType := {
  enumType : string;
  enumIdentifiers : list EnumIdentifier;
}.

(** [req.requestType = t]. *)
Definition set_requestType (t : string) (req : OBSRequest) : OBSRequest :=
  {| description := description req;
     requestType := t;
     complexity := complexity req;
     rpcVersion := rpcVersion req;
     deprecated := deprecated req;
     initialVersion := initialVersion req;
     category := category req;
     requestFields := requestFields req;
     responseFields := responseFields req |}.

(** The body of the [protocol.requests.forEach] that repairs protocol.json
    (5.0.1). *)
Definition fix_request (req : OBSRequest) : OBSRequest :=
  if String.eqb (requestType req) "GetGroupItemList"
  then set_requestType "GetGroupSceneItemList" req
  else req.

Definition fix_requests (requests : list OBSRequest) : list OBSRequest :=
  List.map fix_request requests.

(** [ENUMS], once [protocol.enums.forEach] has filled it: the own
    properties of the table, by name. *)
Definition ENUMS (enums : list EnumType) : gmap string (list EnumIdentifier) :=
  fold_left (fun table e => <[enumType e := enumIdentifiers e]> table) enums ∅.



(** The callback of [events.map] in [generateObsListenerOverrides]. *)
Definition listener_override (ev : OBSEvent) : string :=
  let jsdoc :=
    Js.split "010"%char (ev_description ev)
    ++ [EmptyString;
        "@category " +:+ ev_category ev;
        "@initialVersion " +:+ ev_initialVersion ev;
        "@rpcVersion " +:+ ev_rpcVersion ev;
        "@complexity " +:+ number_text (ev_complexity ev)] in
  let jsdoc := if ev_deprecated ev then jsdoc ++ ["@deprecated"] else jsdoc in
  Js.join newline
    [formatJsDoc jsdoc;
     "on(event: '" +:+ eventType ev +:+ "', listener: (data: OBSEventTypes['"
       +:+ eventType ev +:+ "']) => void): this;"].

Definition generateObsListenerOverrides (events : list OBSEvent) : string :=
  Js.join newline (List.map listener_override events).

(** The parameter [requestData] of a call override. *)
Definition requestData (req : OBSRequest) : string :=
  if (0 <? List.length (requestFields req))%nat
  then "requestData: OBSRequestTypes['" +:+ requestType req +:+ "']"
  else "requestData?: never".

(** The callback of [requests.map] in [generateObsRequestOverrides]. *)
Definition request_override (req : OBSRequest) : string :=
  let jsdoc :=
    Js.split "010"%char (description req)
    ++ [EmptyString;
        "@category " +:+ category req;
        "@initialVersion " +:+ initialVersion req;
        "@rpcVersion " +:+ rpcVersion req;
        "@complexity " +:+ number_text (complexity req)] in
  let jsdoc := if deprecated req then jsdoc ++ ["@deprecated"] else jsdoc in
  Js.join newline
    [formatJsDoc jsdoc;
     "call(requestType: '" +:+ requestType req +:+ "', " +:+ requestData req
       +:+ "): Promise<OBSResponseTypes['" +:+ requestType req +:+ "']>;"].

Definition generateObsRequestOverrides (requests : list OBSRequest) : string :=
  Js.join newline (List.map request_override requests).

(** ** Vocabulary of the further properties *)

(** The declared types of the vocabulary, arrays at any depth. *)
Inductive DeclaredType :=
| DBoolean
| DString
| DNumber
| DObject
| DAny
| DArray (element : DeclaredType).

(** How protocol.json writes a declared type. *)
Fixpoint spell (d : DeclaredType) : string :=
  match d with
  | DBoolean => "Boolean"
  | DString => "String"
  | DNumber => "Number"
  | DObject => "Object"
  | DAny => "Any"
  | DArray element => ARRAY_PREFIX +:+ spell element +:+ ">"
  end.

(** The node of a declared type, without annotations. *)
Fixpoint node_of (d : DeclaredType) : AnyType :=
  match d with
  | DBoolean => PrimitiveType Kboolean no_base
  | DString => PrimitiveType Kstring no_base
  | DNumber => PrimitiveType Knumber no_base
  | DObject => ObjectType [] no_base
  | DAny => JsonValueType [] no_base
  | DArray element => ArrayType (node_of element) no_base
  end.

(** The TypeScript type of a declared type. *)
Fixpoint typescript (d : DeclaredType) : string :=
  match d with
  | DBoolean => "boolean"
  | DString => "string"
  | DNumber => "number"
  | DObject => "JsonObject"
  | DAny => "JsonValue"
  | DArray DObject => "JsonObject[]"
  | DArray element => "Array<" +:+ typescript element +:+ ">"
  end.

(** [inner] wrapped in [n] array types. *)
Fixpoint nest (n : nat) (inner : string) : string :=
  match n with
  | O => inner
  | S n' => ARRAY_PREFIX +:+ nest n' inner +:+ ">"
  end.




(** The descriptors of depth [d], in the order of the list. *)
Definition at_depth (d : nat) (fs : list Field) : list Field :=
  List.filter (fun f => depth f =? d) fs.

(** In every property bag of the tree the names are pairwise distinct. *)
Fixpoint distinct_names (t : AnyType) : Prop :=
  match t with
  | PrimitiveType _ _ => True
  | JsonValueType properties _ | ObjectType properties _ =>
      List.NoDup (names properties)
      /\ (fix all (ps : Tree) : Prop :=
            match ps with
            | [] => True
            | (_, typeDef) :: ps' => distinct_names typeDef /\ all ps'
            end) properties
  | ArrayType items _ => distinct_names items
  end.

(** ** Further examples *)

Module Sample.

(** [settings] is declared twice. *)
Definition declared_twice : list Field :=
  [Scenario.response "settings" "String";
   Scenario.response "name" "String";
   Scenario.response "settings" "Number"].

Definition declared_twice_tree : AnyType :=
  let leaf k := PrimitiveType k {| optional := None; jsdoc := Some EmptyString |} in
  ObjectType [("settings", leaf Knumber); ("name", leaf Kstring)] no_base.

(** The same descriptors, the deeper one first or last. *)
Definition deep_first : list Field :=
  [Scenario.response "a.b" "String"; Scenario.response "c" "Number"].
Definition deep_last : list Field :=
  [Scenario.response "c" "Number"; Scenario.response "a.b" "String"].

Definition bad_event : OBSEvent :=
  {| ev_description := EmptyString;
     eventType := "InputCreated";
     eventSubscription := "EventSubscription::Inputs";
     ev_complexity := 2;
     ev_rpcVersion := "1";
     ev_deprecated := false;
     ev_initialVersion := "5.0.0";
     ev_category := "inputs";
     dataFields := [Scenario.misspelt] |}.

Definition group_request : OBSRequest :=
  {| description := "Basically GetSceneItemList, but for groups.";
     requestType := "GetGroupItemList";
     complexity := 3;
     rpcVersion := "1";
     deprecated := false;
     initialVersion := "5.0.0";
     category := "scene items";
     requestFields := [Scenario.request "sceneName" "String" false];
     responseFields := [Scenario.response "sceneItems" "Array<Object>"] |}.

Definition op_hello : EnumIdentifier :=
  {| enum_description := "The initial message sent by obs-websocket.";
     enumIdentifier := "Hello";
     enum_rpcVersion := "1";
     enum_deprecated := false;
     enum_initialVersion := "5.0.0";
     enumValue := NumberValue 0 |}.

Definition enums_twice : list EnumType :=
  [{| enumType := "WebSocketOpCode"; enumIdentifiers := [] |};
   {| enumType := "EventSubscription"; enumIdentifiers := [] |};
   {| enumType := "WebSocketOpCode"; enumIdentifiers := [op_hello] |}].

End Sample.

(** * Properties *)

(** ** Strings *)

Lemma split_not_nil sep s : Js.split sep s <> [].
Proof.
  destruct s as [|c s]; simpl; [discriminate|].
  destruct (Ascii.eqb c sep); [discriminate|].
  destruct (Js.split sep s); discriminate.
Qed.

Lemma split_length s : List.length (Js.split "."%char s) = S (Js.count_dots s).
Proof.
  induction s as [|c s IH]; simpl; [reflexivity|].
  destruct (Ascii.eqb c "."%char); simpl.
  - now rewrite IH.
  - destruct (Js.split "."%char s) eqn:E; simpl in *; [discriminate|assumption].
Qed.

Lemma join_split s : Js.join "." (Js.split "."%char s) = s.
Proof.
  induction s as [|c s IH]; simpl; [reflexivity|].
  destruct (Ascii.eqb c "."%char) eqn:Ec.
  - apply Ascii.eqb_eq in Ec; subst c.
    pose proof (split_not_nil "."%char s) as Hne.
    destruct (Js.split "."%char s) as [|w ws] eqn:E; [contradiction|].
    change (Js.join "." (EmptyString :: w :: ws)) with (EmptyString +:+ "." +:+ Js.join "." (w :: ws)).
    rewrite IH. reflexivity.
  - pose proof (split_not_nil "."%char s) as Hne.
    destruct (Js.split "."%char s) as [|w ws] eqn:E; [contradiction|].
    destruct ws as [|w' ws]; simpl in *; now rewrite <- IH.
Qed.

Lemma split_inj s1 s2 : Js.split "."%char s1 = Js.split "."%char s2 -> s1 = s2.
Proof.
  intros H. rewrite <- (join_split s1), <- (join_split s2). now rewrite H.
Qed.

Lemma pop_snoc {A : Type} (l : list A) (x : A) : Js.pop (l ++ [x]) = (l, Some x).
Proof.
  induction l as [|y l IH]; simpl; [reflexivity|].
  rewrite IH. destruct (l ++ [x]) eqn:E; [|reflexivity].
  destruct l; discriminate.
Qed.

Lemma string_app_inv_head (p s1 s2 : string) : p +:+ s1 = p +:+ s2 -> s1 = s2.
Proof.
  induction p as [|c p IH]; simpl; intros H; [assumption|].
  injection H as H. auto.
Qed.

Lemma string_app_assoc (a b c : string) : (a +:+ b) +:+ c = a +:+ b +:+ c.
Proof. induction a as [|x a IH]; simpl; [reflexivity|f_equal; exact IH]. Qed.

Lemma string_length_app (a b : string) :
  String.length (a +:+ b) = String.length a + String.length b.
Proof. induction a as [|x a IH]; simpl; [reflexivity|f_equal; exact IH]. Qed.

Lemma prefix_app (p r : string) : String.prefix p (p +:+ r) = true.
Proof.
  induction p as [|c p IH]; simpl; [now destruct r|].
  destruct (ascii_dec c c); [assumption|contradiction].
Qed.

Lemma prefix_inv (p s : string) :
  String.prefix p s = true -> exists r, s = p +:+ r.
Proof.
  revert s. induction p as [|c p IH]; intros s H.
  - exists s. reflexivity.
  - destruct s as [|d s]; simpl in H; [discriminate|].
    destruct (ascii_dec c d) as [->|]; [|discriminate].
    destruct (IH s H) as [r ->]. exists r. reflexivity.
Qed.

Lemma substring_skip (p s : string) (m : nat) :
  String.substring (String.length p) m (p +:+ s) = String.substring 0 m s.
Proof. induction p as [|c p IH]; simpl; [reflexivity|exact IH]. Qed.

Lemma substring_take (t r : string) :
  String.substring 0 (String.length t) (t +:+ r) = t.
Proof.
  induction t as [|c t IH]; simpl; [now destruct r|now rewrite IH].
Qed.

Lemma substring_length (n m : nat) (s : string) :
  String.length (String.substring n m s) <= m.
Proof.
  revert n m. induction s as [|c s IH]; intros [|n] [|m]; simpl; try lia.
  - specialize (IH 0 m). lia.
  - apply IH.
  - apply IH.
Qed.

(** [lastIndexOf]: either the character is absent and the answer is the
    initial one, or the answer is an index of the string. *)
Lemma lastIndexOf_from_bounds c s i found :
  Js.lastIndexOf_from c s i found = found
  \/ (i <= Js.lastIndexOf_from c s i found < i + Z.of_nat (String.length s))%Z.
Proof.
  revert i found. induction s as [|d s IH]; intros i found; simpl; [now left|].
  destruct (IH (i + 1)%Z (if Ascii.eqb d c then i else found)) as [E|B].
  - rewrite E. destruct (Ascii.eqb d c); [right; lia|now left].
  - right. lia.
Qed.

Lemma lastIndexOf_from_app c a b i found :
  Js.lastIndexOf_from c (a +:+ b) i found
  = Js.lastIndexOf_from c b (i + Z.of_nat (String.length a))%Z
                        (Js.lastIndexOf_from c a i found).
Proof.
  revert i found. induction a as [|d a IH]; intros i found; simpl.
  - f_equal. lia.
  - rewrite IH. f_equal. lia.
Qed.

Lemma lastIndexOf_array_prefix r :
  Js.lastIndexOf ">"%char (ARRAY_PREFIX +:+ r) = (-1)%Z
  \/ (6 <= Js.lastIndexOf ">"%char (ARRAY_PREFIX +:+ r)
      < 6 + Z.of_nat (String.length r))%Z.
Proof.
  unfold Js.lastIndexOf. rewrite lastIndexOf_from_app.
  change (Js.lastIndexOf_from ">"%char ARRAY_PREFIX 0 (-1)) with (-1)%Z.
  change (0 + Z.of_nat (String.length ARRAY_PREFIX))%Z with 6%Z.
  apply lastIndexOf_from_bounds.
Qed.

(** ** Type resolver *)

Lemma getBaseType_depth_eq depth inType :
  getBaseType_depth depth inType
  = if Js.startsWith inType ARRAY_PREFIX then
      match depth with
      | O => Throw RangeError
      | S depth' =>
          items ← getBaseType_depth depth'
                    (Js.substring inType 6 (Js.lastIndexOf ">"%char inType));
          Ok (ArrayType items no_base)
      end
    else if String.eqb inType "Boolean" then Ok (PrimitiveType Kboolean no_base)
    else if String.eqb inType "String" then Ok (PrimitiveType Kstring no_base)
    else if String.eqb inType "Number" then Ok (PrimitiveType Knumber no_base)
    else if String.eqb inType "Object" then Ok (ObjectType [] no_base)
    else if String.eqb inType "Any" then Ok (JsonValueType [] no_base)
    else Throw (UnknownType inType).
Proof. destruct depth; reflexivity. Qed.

(** Without a closing [>] the recursion never ends. *)
Lemma getBaseType_depth_loop depth :
  getBaseType_depth depth ARRAY_PREFIX = Throw RangeError.
Proof.
  induction depth as [|depth IH]; [reflexivity|].
  change (getBaseType_depth (S depth) ARRAY_PREFIX)
    with (items ← getBaseType_depth depth ARRAY_PREFIX; Ok (ArrayType items no_base)).
  now rewrite IH.
Qed.

(** The sub-type text of an array type: [Array<] again, or shorter text. *)
Lemma subType_cases r :
  let inType := ARRAY_PREFIX +:+ r in
  let subType := Js.substring inType 6 (Js.lastIndexOf ">"%char inType) in
  subType = ARRAY_PREFIX \/ String.length subType < String.length r.
Proof.
  intros inType subType.
  destruct (lastIndexOf_array_prefix r) as [E|B].
  - fold inType in E. left. subst subType. rewrite E. unfold Js.substring, Js.clamp.
    assert (String.length inType = 6 + String.length r) as ->
        by (unfold inType; now rewrite string_length_app).
    change (Z.to_nat (-1)) with 0. change (Z.to_nat 6) with 6.
    replace (Nat.min 6 (6 + String.length r)) with 6 by lia.
    change (Nat.min 0 (6 + String.length r)) with 0.
    change (Nat.min 6 0) with 0. change (Nat.max 6 0 - 0) with (String.length ARRAY_PREFIX).
    unfold inType. apply substring_take.
  - fold inType in B. right. subst subType. unfold Js.substring, Js.clamp.
    assert (String.length inType = 6 + String.length r) as Hlen
        by (unfold inType; now rewrite string_length_app).
    rewrite Hlen. change (Z.to_nat 6) with 6.
    set (idx := Js.lastIndexOf ">"%char inType) in *.
    replace (Nat.min 6 (6 + String.length r)) with 6 by lia.
    replace (Nat.min (Z.to_nat idx) (6 + String.length r)) with (Z.to_nat idx) by lia.
    replace (Nat.min 6 (Z.to_nat idx)) with 6 by lia.
    replace (Nat.max 6 (Z.to_nat idx)) with (Z.to_nat idx) by lia.
    pose proof (substring_length 6 (Z.to_nat idx - 6) inType). lia.
Qed.

(** The bound on the call stack is never what stops a recursion that ends:
    every bound from the length of the text on gives the same result. *)
Lemma getBaseType_depth_enough n m s :
  String.length s <= n -> String.length s <= m ->
  getBaseType_depth n s = getBaseType_depth m s.
Proof.
  revert m s. induction n as [|n IH]; intros m s Hn Hm.
  - destruct s; [|simpl in Hn; lia]. now destruct m.
  - destruct (Js.startsWith s ARRAY_PREFIX) eqn:Hp.
    + destruct (prefix_inv _ _ Hp) as [r ->].
      rewrite string_length_app in Hn, Hm. simpl in Hn, Hm.
      destruct m as [|m]; [lia|].
      rewrite (getBaseType_depth_eq (S n)), (getBaseType_depth_eq (S m)), Hp.
      pose proof (subType_cases r) as Hsub. cbv zeta in Hsub.
      destruct Hsub as [E|L].
      * rewrite E, !getBaseType_depth_loop. reflexivity.
      * rewrite (IH m); [reflexivity|lia|lia].
    + rewrite (getBaseType_depth_eq (S n)), (getBaseType_depth_eq m), Hp.
      reflexivity.
Qed.

Lemma getBaseType_enough n s :
  String.length s <= n -> getBaseType_depth n s = getBaseType s.
Proof. intros H. apply getBaseType_depth_enough; [assumption|reflexivity]. Qed.

(** [Array<T>] resolves [T] and wraps it, whatever [T] is. *)
Lemma getBaseType_array (T : string) :
  getBaseType (ARRAY_PREFIX +:+ T +:+ ">")
  = (items ← getBaseType T; Ok (ArrayType items no_base)).
Proof.
  unfold getBaseType at 1.
  rewrite !string_length_app. simpl String.length.
  replace (6 + (String.length T + 1)) with (S (6 + String.length T)) by lia.
  rewrite getBaseType_depth_eq. unfold Js.startsWith. rewrite prefix_app.
  assert (Js.lastIndexOf ">"%char (ARRAY_PREFIX +:+ T +:+ ">")
          = Z.of_nat (6 + String.length T)) as ->.
  { unfold Js.lastIndexOf. rewrite !lastIndexOf_from_app. simpl. lia. }
  change 6%Z with (Z.of_nat 6).
  assert (Js.substring (ARRAY_PREFIX +:+ T +:+ ">") (Z.of_nat 6)
                       (Z.of_nat (6 + String.length T)) = T) as ->.
  { unfold Js.substring, Js.clamp. rewrite !string_length_app. simpl String.length.
    rewrite !Nat2Z.id.
    replace (Nat.min 6 (6 + (String.length T + 1))) with 6 by lia.
    replace (Nat.min (6 + String.length T) (6 + (String.length T + 1)))
      with (6 + String.length T) by lia.
    replace (Nat.min 6 (6 + String.length T)) with 6 by lia.
    replace (Nat.max 6 (6 + String.length T) - 6) with (String.length T) by lia.
    change 6 with (String.length ARRAY_PREFIX) at 1.
    rewrite substring_skip. apply substring_take. }
  rewrite getBaseType_enough by lia. reflexivity.
Qed.

(** A text that is no array type resolves by the table alone. *)
Lemma getBaseType_not_array s :
  Js.startsWith s ARRAY_PREFIX = false ->
  getBaseType s
  = if String.eqb s "Boolean" then Ok (PrimitiveType Kboolean no_base)
    else if String.eqb s "String" then Ok (PrimitiveType Kstring no_base)
    else if String.eqb s "Number" then Ok (PrimitiveType Knumber no_base)
    else if String.eqb s "Object" then Ok (ObjectType [] no_base)
    else if String.eqb s "Any" then Ok (JsonValueType [] no_base)
    else Throw (UnknownType s).
Proof.
  intros H. unfold getBaseType. rewrite getBaseType_depth_eq, H. reflexivity.
Qed.

Lemma getBaseType_unknown s :
  Js.startsWith s ARRAY_PREFIX = false -> ~ In s base_vocabulary ->
  getBaseType s = Throw (UnknownType s).
Proof.
  intros H Hv. rewrite getBaseType_not_array by assumption.
  repeat match goal with
  | |- context [String.eqb s ?t] =>
      destruct (String.eqb_spec s t) as [->|_];
      [exfalso; apply Hv; simpl; tauto|]
  end.
  reflexivity.
Qed.

(** Only the declared type [Object] resolves to an object node. *)
Lemma getBaseType_object s t :
  getBaseType s = Ok t -> is_object t = true -> s = "Object".
Proof.
  unfold getBaseType. intros H Ho.
  destruct (Js.startsWith s ARRAY_PREFIX) eqn:Hp.
  - rewrite getBaseType_depth_eq, Hp in H.
    destruct (String.length s); [discriminate|].
    match type of H with
    | (_ ← ?r; _) = _ => destruct r; simpl in H; [|discriminate]
    end.
    injection H as <-. discriminate.
  - fold (getBaseType s) in H. rewrite getBaseType_not_array in H by assumption.
    repeat match type of H with
    | context [String.eqb s ?t] =>
        destruct (String.eqb_spec s t) as [->|_];
        [try reflexivity; injection H as <-; discriminate|]
    end.
    discriminate.
Qed.

Lemma resolveType_base_type f t :
  resolveType f = Ok t ->
  exists t0, getBaseType (valueType f) = Ok t0 /\ t = with_base (base_of t) t0.
Proof.
  unfold resolveType. intros H.
  destruct (getBaseType (valueType f)) as [t0|e]; simpl in H; [|discriminate].
  exists t0. split; [reflexivity|].
  destruct f; injection H as <-; now destruct t0.
Qed.

Lemma resolveType_object f t :
  resolveType f = Ok t -> is_object t = true -> valueType f = "Object".
Proof.
  intros H Ho. destruct (resolveType_base_type _ _ H) as (t0 & H0 & E).
  apply (getBaseType_object _ t0 H0). rewrite E in Ho. now destruct t0.
Qed.

(** ** Property bags *)

Section Bags.
Context {V : Type}.
Implicit Types (l : list (string * V)) (k : string) (v : V).

Lemma get_set_eq k v l : Js.get k (Js.set k v l) = Some v.
Proof.
  induction l as [|[k' v'] l IH]; simpl.
  - now rewrite String.eqb_refl.
  - destruct (String.eqb k' k) eqn:E; simpl; rewrite E; [reflexivity|exact IH].
Qed.

Lemma get_set_ne k k' v l : k <> k' -> Js.get k' (Js.set k v l) = Js.get k' l.
Proof.
  intros Hne. induction l as [|[k0 v0] l IH]; simpl.
  - apply String.eqb_neq in Hne. now rewrite Hne.
  - destruct (String.eqb_spec k0 k) as [->|E]; simpl.
    + apply String.eqb_neq in Hne. now rewrite Hne.
    + now rewrite IH.
Qed.

Lemma get_None k l : Js.get k l = None <-> ~ In k (List.map fst l).
Proof.
  induction l as [|[k0 v0] l IH]; simpl; [tauto|].
  destruct (String.eqb_spec k0 k) as [->|Hne].
  - split; [discriminate|]. intros H. exfalso. apply H. now left.
  - rewrite IH. tauto.
Qed.

Lemma get_Some_In k v l : Js.get k l = Some v -> In k (List.map fst l).
Proof.
  intros H. destruct (in_dec string_dec k (List.map fst l)) as [|Hn]; [assumption|].
  apply get_None in Hn. congruence.
Qed.

(** Assignment keeps the creation order: an existing key keeps its
    place, a new key goes last. *)
Lemma set_names k v l :
  List.map fst (Js.set k v l)
  = match Js.get k l with
    | Some _ => List.map fst l
    | None => List.map fst l ++ [k]
    end.
Proof.
  induction l as [|[k0 v0] l IH]; simpl; [reflexivity|].
  destruct (String.eqb_spec k0 k) as [->|Hne]; simpl; [reflexivity|].
  rewrite IH. now destruct (Js.get k l).
Qed.

Lemma entries_singleton k v : Js.entries [(k, v)] = [(k, v)].
Proof.
  unfold Js.entries. simpl. now destruct (Js.array_index k).
Qed.
End Bags.

(** ** The depth sort *)

Lemma by_dots_le a b : (by_dots a b <=? 0)%Z = (depth a <=? depth b).
Proof.
  unfold by_dots, depth.
  destruct (Nat.leb_spec (Js.count_dots (valueName a)) (Js.count_dots (valueName b)));
    [apply Z.leb_le|apply Z.leb_gt]; lia.
Qed.

(** Where [sort_insert] puts the new element: after the elements that are
    strictly shallower, before the first that is not. *)
Lemma sort_insert_split (x : Field) (l : list Field) :
  exists pre post,
    l = pre ++ post /\ Js.sort_insert by_dots x l = pre ++ x :: post
    /\ Forall (fun y => depth y < depth x) pre.
Proof.
  induction l as [|y l (pre & post & E & Ei & Hpre)]; simpl.
  - exists [], []. repeat split. constructor.
  - rewrite by_dots_le. destruct (Nat.leb_spec (depth x) (depth y)).
    + exists [], (y :: l). repeat split. constructor.
    + exists (y :: pre), post. rewrite E at 1. rewrite Ei. repeat split.
      constructor; assumption.
Qed.

Lemma sort_permutation (l : list Field) : Permutation (Js.sort by_dots l) l.
Proof.
  induction l as [|x l IH]; simpl; [constructor|].
  destruct (sort_insert_split x (Js.sort by_dots l)) as (pre & post & E & -> & _).
  rewrite <- Permutation_middle. constructor. now rewrite <- E.
Qed.

Lemma sort_In (x : Field) (l : list Field) : In x l <-> In x (Js.sort by_dots l).
Proof.
  split; apply Permutation_in; [symmetry|]; apply sort_permutation.
Qed.

Lemma sort_sorted (l : list Field) : StronglySorted shallower (Js.sort by_dots l).
Proof.
  induction l as [|x l IH]; simpl; [constructor|].
  induction IH as [|y s Hs IHs Hy]; simpl; [repeat constructor|].
  rewrite by_dots_le. destruct (Nat.leb_spec (depth x) (depth y)).
  - constructor; [constructor; assumption|].
    constructor; [assumption|].
    eapply List.Forall_impl; [|exact Hy]. unfold shallower. intros; simpl in *; lia.
  - constructor; [assumption|].
    destruct (sort_insert_split x s) as (pre & post & E & -> & _).
    subst s. apply List.Forall_app in Hy as [Hpre Hpost].
    apply List.Forall_app. split; [assumption|].
    constructor; [unfold shallower; lia|assumption].
Qed.

(** Stability: two descriptors keep their order unless the later one is
    strictly shallower. *)
Lemma sort_stable (x y : Field) (l : list Field) :
  before x y l -> depth x <= depth y -> before x y (Js.sort by_dots l).
Proof.
  intros (l1 & l2 & l3 & ->) Hd.
  induction l1 as [|a l1 IH]; simpl.
  - assert (In y (Js.sort by_dots (l2 ++ y :: l3))) as Hy.
    { apply (proj1 (sort_In _ _)). apply in_or_app. right. now left. }
    destruct (sort_insert_split x (Js.sort by_dots (l2 ++ y :: l3)))
      as (pre & post & E & -> & Hpre).
    rewrite E in Hy. apply in_app_or in Hy as [Hy|Hy].
    + rewrite List.Forall_forall in Hpre. specialize (Hpre _ Hy). lia.
    + apply in_split in Hy as (p1 & p2 & ->). now exists pre, p1, p2.
  - destruct IH as (m1 & m2 & m3 & E).
    destruct (sort_insert_split a (Js.sort by_dots (l1 ++ x :: l2 ++ y :: l3)))
      as (pre & post & Epp & -> & _).
    rewrite E in Epp. clear E.
    (* [a] lands somewhere in [m1 ++ x :: m2 ++ y :: m3] *)
    assert (before x y (pre ++ post)) as (q1 & q2 & q3 & Eq)
        by (rewrite <- Epp; now exists m1, m2, m3).
    clear Epp.
    revert q1 Eq. induction pre as [|b pre IHp]; intros q1 Eq; simpl in *.
    + subst post. now exists (a :: q1), q2, q3.
    + destruct q1 as [|c q1]; simpl in Eq; injection Eq as -> Eq.
      * (* x is the head of pre *)
        clear IHp.
        assert (In y (pre ++ post)) as Hy by (rewrite Eq; apply in_or_app; right; now left).
        assert (In y (pre ++ a :: post)) as Hy'.
        { apply in_app_or in Hy as [|]; apply in_or_app; [now left|right; now right]. }
        apply in_split in Hy' as (p1 & p2 & ->). now exists [], p1, p2.
      * destruct (IHp q1 Eq) as (r1 & r2 & r3 & ->). now exists (c :: r1), r2, r3.
Qed.

(** ** Iteration *)

Lemma forEach_app {A S : Type} (f : A -> S -> result S) (l1 l2 : list A) (s : S) :
  forEach f (l1 ++ l2) s = (s' ← forEach f l1 s; forEach f l2 s').
Proof.
  revert s. induction l1 as [|x l1 IH]; intros s; simpl; [reflexivity|].
  destruct (f x s) as [s1|e]; simpl; [apply IH|reflexivity].
Qed.

(** An element whose callback throws on every state makes the loop throw. *)
Lemma forEach_throws {A S : Type} (f : A -> S -> result S) (x : A) (l : list A) :
  In x l -> (forall s, throws (f x s) = true) ->
  forall s, throws (forEach f l s) = true.
Proof.
  intros Hin Hx. induction l as [|y l IH]; intros s; [contradiction|].
  simpl. destruct Hin as [->|Hin].
  - specialize (Hx s). destruct (f x s); [discriminate|reflexivity].
  - destruct (f y s); simpl; [now apply IH|reflexivity].
Qed.

(** A property of the state that every callback keeps holds at the end. *)
Lemma forEach_invariant {A S : Type} (f : A -> S -> result S) (I : S -> Prop)
      (l : list A) :
  (forall x s s', In x l -> I s -> f x s = Ok s' -> I s') ->
  forall s s', I s -> forEach f l s = Ok s' -> I s'.
Proof.
  induction l as [|x l IH]; intros Hf s s' Hs H; simpl in H.
  - now injection H as <-.
  - destruct (f x s) as [s1|e] eqn:E; simpl in H; [|discriminate].
    apply (IH (fun y a b Hy => Hf y a b (or_intror Hy)) s1 s'); [|assumption].
    apply (Hf x s s1); [now left|assumption|assumption].
Qed.

Lemma throws_not_Ok {A : Type} (r : result A) : throws r = true <-> forall a, r <> Ok a.
Proof.
  destruct r; unfold throws; simpl; split; try discriminate; try reflexivity.
  intros H. now specialize (H a).
Qed.

(** ** Nodes without properties *)

Lemma no_properties_nav t segment : no_properties t = true -> nav segment t = None.
Proof.
  unfold nav, enter. intros H.
  destruct (String.eqb segment "*").
  - destruct t as [| | |[| |ps ?|] ?]; try reflexivity.
    destruct ps; [reflexivity|discriminate].
  - destruct t as [| |ps ?|]; try reflexivity.
    destruct ps; [reflexivity|discriminate].
Qed.

Lemma no_properties_reach t segment path :
  no_properties t = true -> reach (segment :: path) t = None.
Proof. intros H. simpl. now rewrite no_properties_nav. Qed.

Lemma new_child_no_properties next : no_properties (new_child next) = true.
Proof.
  unfold new_child. destruct next as [n|]; [|reflexivity].
  now destruct (String.eqb n "*").
Qed.

Lemma getBaseType_depth_no_properties n s t :
  getBaseType_depth n s = Ok t -> no_properties t = true.
Proof.
  revert s t. induction n as [|n IH]; intros s t; rewrite getBaseType_depth_eq;
    destruct (Js.startsWith s ARRAY_PREFIX).
  1: discriminate.
  2: { intros H.
       destruct (getBaseType_depth n _) as [i|] eqn:E; simpl in H; [|discriminate].
       injection H as <-. apply IH in E. simpl.
       destruct i as [| |ps ?|]; try reflexivity. now destruct ps. }
  all: repeat match goal with
       | |- context [String.eqb ?x ?c] => destruct (String.eqb x c)
       end; intros H; try discriminate; now injection H as <-.
Qed.

Lemma resolveType_no_properties f t :
  resolveType f = Ok t -> no_properties t = true.
Proof.
  intros H. destruct (resolveType_base_type _ _ H) as (t0 & H0 & ->).
  apply getBaseType_depth_no_properties in H0.
  destruct t0 as [| |ps ?|i ?]; try assumption; try reflexivity.
Qed.

(** ** One round of the loop *)

Section Walk.
Variable item : Field.
Variable lastPart : string.

Lemma walk_nil node : walk item lastPart [] node = assign_leaf item lastPart node.
Proof. reflexivity. Qed.

Lemma walk_cons nodeName rest node :
  walk item lastPart (nodeName :: rest) node
  = match enter nodeName node with
    | Some (ObjectType properties b) =>
        child' ← walk item lastPart rest (child_of nodeName rest properties);
        Ok (rebuild nodeName node (ObjectType (Js.set nodeName child' properties) b))
    | Some other => Throw (UnexpectedCurrentType other item nodeName)
    | None => Throw (UnexpectedStarKey node item)
    end.
Proof.
  unfold enter, rebuild, child_of. simpl.
  destruct (String.eqb nodeName "*").
  - destruct node as [| | |[| |ps bi|] b]; try reflexivity.
    simpl. now destruct (walk item lastPart rest _).
  - now destruct node.
Qed.

(** The successful outcomes of the code after the loop. *)
Lemma assign_leaf_Ok node node' :
  assign_leaf item lastPart node = Ok node' ->
  exists properties b leaf,
    node = ObjectType properties b /\ lastPart <> "*"
    /\ resolveType item = Ok leaf
    /\ node' = ObjectType (Js.set lastPart leaf properties) b.
Proof.
  unfold assign_leaf. destruct (String.eqb_spec lastPart "*"); [discriminate|].
  destruct node as [| |ps b|]; try discriminate.
  destruct (resolveType item) as [leaf|]; simpl; [|discriminate].
  intros H. injection H as <-. now exists ps, b, leaf.
Qed.

(** The successful outcomes of one round. *)
Lemma walk_cons_Ok nodeName rest node node' :
  walk item lastPart (nodeName :: rest) node = Ok node' ->
  exists properties b child',
    enter nodeName node = Some (ObjectType properties b)
    /\ walk item lastPart rest (child_of nodeName rest properties) = Ok child'
    /\ node' = rebuild nodeName node
                 (ObjectType (Js.set nodeName child' properties) b).
Proof.
  rewrite walk_cons.
  destruct (enter nodeName node) as [[| |ps b|]|]; try discriminate.
  destruct (walk item lastPart rest _) as [c|] eqn:E; simpl; [|discriminate].
  intros H. injection H as <-. now exists ps, b, c.
Qed.

(** How the moves from the rebuilt node relate to the moves from the
    node the round started from. *)
Lemma nav_enter segment node properties b :
  enter segment node = Some (ObjectType properties b) ->
  nav segment node = Js.get segment properties.
Proof. unfold nav. now intros ->. Qed.

Lemma nav_rebuild_same segment node properties b properties' b' :
  enter segment node = Some (ObjectType properties b) ->
  nav segment (rebuild segment node (ObjectType properties' b'))
  = Js.get segment properties'.
Proof.
  unfold nav, enter, rebuild. destruct (String.eqb segment "*") eqn:E.
  - intros _. simpl. now rewrite ?E.
  - intros _. simpl. now rewrite ?E.
Qed.

Lemma nav_rebuild_other segment other node properties b child :
  enter segment node = Some (ObjectType properties b) ->
  other <> segment ->
  nav other (rebuild segment node (ObjectType (Js.set segment child properties) b))
  = nav other node.
Proof.
  unfold nav, enter, rebuild. intros He Hne.
  destruct (String.eqb_spec segment "*") as [->|Hs];
    destruct (String.eqb_spec other "*") as [->|Ho]; try contradiction.
  - now destruct node.
  - destruct node; try discriminate. reflexivity.
  - injection He as ->. now rewrite get_set_ne by congruence.
Qed.

Lemma rebuild_is_object segment node properties b element :
  enter segment node = Some (ObjectType properties b) ->
  is_object element = true ->
  is_object (rebuild segment node element) = is_object node.
Proof.
  unfold enter, rebuild. destruct (String.eqb segment "*").
  - destruct node; try discriminate. reflexivity.
  - intros H. injection H as ->. now intros ->.
Qed.

(** At the root of a round that starts from an object. *)
Lemma enter_object segment properties b properties' b' :
  enter segment (ObjectType properties b) = Some (ObjectType properties' b') ->
  segment <> "*" /\ properties' = properties /\ b' = b.
Proof.
  unfold enter. destruct (String.eqb_spec segment "*"); [discriminate|].
  intros H. injection H as -> ->. auto.
Qed.

Lemma child_of_nav segment rest node properties b :
  enter segment node = Some (ObjectType properties b) ->
  (exists c, nav segment node = Some c /\ child_of segment rest properties = c)
  \/ (nav segment node = None
      /\ child_of segment rest properties = new_child (head rest)).
Proof.
  intros He. rewrite (nav_enter _ _ _ _ He). unfold child_of.
  destruct (Js.get segment properties) as [c|]; [left; now exists c|now right].
Qed.
End Walk.

(** ** The whole loop *)

Section Paths.
Variable item : Field.
Variable lastPart : string.

#[local] Abbreviation walk_ := (walk item lastPart).

(** A trailing wildcard is refused whatever the tree is. *)
Lemma walk_star_throws parts node :
  lastPart = "*" -> throws (walk_ parts node) = true.
Proof.
  intros ->. revert node. induction parts as [|n rest IH]; intros node.
  - reflexivity.
  - rewrite walk_cons.
    destruct (enter n node) as [[| |ps b|]|]; try reflexivity.
    specialize (IH (child_of n rest ps)).
    destruct (walk item "*" rest (child_of n rest ps)); [discriminate|reflexivity].
Qed.

(** So is a descriptor whose declared type does not resolve. *)
Lemma walk_unresolved_throws parts node e :
  resolveType item = Throw e -> throws (walk_ parts node) = true.
Proof.
  intros Hr. revert node. induction parts as [|n rest IH]; intros node.
  - rewrite walk_nil. unfold assign_leaf.
    destruct (String.eqb lastPart "*"); [reflexivity|].
    destruct node; try reflexivity. now rewrite Hr.
  - rewrite walk_cons.
    destruct (enter n node) as [[| |ps b|]|]; try reflexivity.
    specialize (IH (child_of n rest ps)).
    destruct (walk_ rest (child_of n rest ps)); [discriminate|reflexivity].
Qed.

(** The loop never turns an object into something else, nor the
    converse. *)
Lemma walk_is_object parts node node' :
  walk_ parts node = Ok node' -> is_object node' = is_object node.
Proof.
  destruct parts as [|n rest]; intros H.
  - apply assign_leaf_Ok in H as (ps & b & leaf & -> & _ & _ & ->). reflexivity.
  - apply walk_cons_Ok in H as (ps & b & c & He & _ & ->).
    now apply (rebuild_is_object _ _ _ _ _ He).
Qed.

(** After a successful loop the leaf is where the path leads. *)
Lemma walk_reaches parts node node' :
  walk_ parts node = Ok node' ->
  exists properties b leaf,
    resolveType item = Ok leaf /\ lastPart <> "*"
    /\ reach parts node' = Some (ObjectType properties b)
    /\ Js.get lastPart properties = Some leaf.
Proof.
  revert node node'. induction parts as [|n rest IH]; intros node node' H.
  - apply assign_leaf_Ok in H as (ps & b & leaf & -> & Hl & Hr & ->).
    exists (Js.set lastPart leaf ps), b, leaf. repeat split; try assumption.
    apply get_set_eq.
  - apply walk_cons_Ok in H as (ps & b & c & He & Hw & ->).
    destruct (IH _ _ Hw) as (ps' & b' & leaf & Hr & Hl & Hreach & Hget).
    exists ps', b', leaf. repeat split; try assumption.
    simpl. rewrite (nav_rebuild_same _ _ _ _ _ _ He), get_set_eq. exact Hreach.
Qed.

(** A position that holds something else than an object keeps doing so,
    as long as the descriptor is not shallower than the position and, if
    it names the position itself, does not declare an object. *)
Lemma walk_keeps_leaf parts path node node' L :
  walk_ parts node = Ok node' ->
  reach path node = Some L -> is_object L = false ->
  List.length path <= S (List.length parts) ->
  (parts ++ [lastPart] = path -> valueType item <> "Object") ->
  exists L', reach path node' = Some L' /\ is_object L' = false.
Proof.
  revert path node node'. induction parts as [|n rest IH];
    intros path node node' H Hreach HL Hlen Hsame.
  - apply assign_leaf_Ok in H as (ps & b & leaf & -> & Hl & Hr & ->).
    destruct path as [|p [|? ?]]; simpl in Hlen; try lia.
    + injection Hreach as <-. discriminate.
    + simpl in Hreach |- *. unfold nav, enter in Hreach |- *.
      destruct (String.eqb_spec p "*") as [->|Hp]; [discriminate|].
      destruct (String.eqb_spec lastPart p) as [->|Hne].
      * rewrite get_set_eq. exists leaf. split; [reflexivity|].
        destruct (is_object leaf) eqn:Eo; [|reflexivity].
        exfalso. apply Hsame; [reflexivity|].
        now apply (resolveType_object _ _ Hr).
      * rewrite get_set_ne by assumption. now exists L.
  - pose proof (walk_is_object _ _ _ H) as Hobj.
    apply walk_cons_Ok in H as (ps & b & c & He & Hw & ->).
    destruct path as [|p path].
    + injection Hreach as <-. eexists. split; [reflexivity|]. congruence.
    + simpl in Hreach |- *. destruct (String.eqb_spec p n) as [->|Hne].
      * rewrite (nav_rebuild_same _ _ _ _ _ _ He), get_set_eq.
        rewrite (nav_enter _ _ _ _ He) in Hreach. unfold child_of in Hw.
        destruct (Js.get n ps) as [c0|]; [|discriminate].
        apply (IH path c0 c Hw Hreach HL); [simpl in Hlen; lia|].
        intros E. apply Hsame. simpl. now rewrite E.
      * rewrite (nav_rebuild_other _ _ _ _ _ _ He Hne). now exists L.
Qed.

(** A path that goes on below such a position, with a property name,
    is refused. *)
Lemma walk_blocked path parts node L s below :
  reach path node = Some L -> is_object L = false ->
  parts ++ [lastPart] = path ++ s :: below -> s <> "*" ->
  throws (walk_ parts node) = true.
Proof.
  revert parts node. induction path as [|p path IH];
    intros parts node Hreach HL Hsplit Hs.
  - injection Hreach as <-. destruct parts as [|n rest].
    + injection Hsplit as -> _. rewrite walk_nil. unfold assign_leaf.
      apply String.eqb_neq in Hs. rewrite Hs. now destruct node.
    + injection Hsplit as -> _. rewrite walk_cons. unfold enter.
      apply String.eqb_neq in Hs. rewrite Hs. now destruct node.
  - destruct parts as [|n rest].
    + exfalso. apply (f_equal (@List.length _)) in Hsplit.
      simpl in Hsplit. rewrite List.length_app in Hsplit. simpl in Hsplit. lia.
    + injection Hsplit as -> Hsplit. simpl in Hreach. rewrite walk_cons.
      unfold nav in Hreach.
      destruct (enter p node) as [[| |ps b|]|]; try discriminate.
      unfold child_of. destruct (Js.get p ps) as [c|]; [|discriminate].
      specialize (IH rest c Hreach HL Hsplit Hs).
      destruct (walk_ rest c); [discriminate|reflexivity].
Qed.

(** The loop creates nodes on its own path only. *)
Lemma walk_creates_on_path parts path node node' :
  walk_ parts node = Ok node' ->
  reach path node = None ->
  ~ path `prefix_of` parts ++ [lastPart] ->
  reach path node' = None.
Proof.
  revert path node node'. induction parts as [|n rest IH];
    intros path node node' H Hreach Hpre.
  - apply assign_leaf_Ok in H as (ps & b & leaf & -> & Hl & Hr & ->).
    destruct path as [|p path]; [discriminate|].
    simpl in Hreach |- *. unfold nav, enter in Hreach |- *.
    destruct (String.eqb_spec p "*") as [->|Hp]; [reflexivity|].
    destruct (String.eqb_spec lastPart p) as [->|Hne].
    + rewrite get_set_eq. destruct path as [|q path].
      * exfalso. apply Hpre. now exists [].
      * apply no_properties_reach. now apply (resolveType_no_properties item).
    + now rewrite get_set_ne by assumption.
  - apply walk_cons_Ok in H as (ps & b & c & He & Hw & ->).
    destruct path as [|p path]; [discriminate|].
    simpl in Hreach |- *. destruct (String.eqb_spec p n) as [->|Hne].
    + rewrite (nav_rebuild_same _ _ _ _ _ _ He), get_set_eq.
      apply (IH path _ _ Hw).
      * destruct (child_of_nav n rest node ps b He) as [(c0 & Hn & ->)|[Hn ->]].
        -- now rewrite Hn in Hreach.
        -- destruct path as [|q path].
           ++ exfalso. apply Hpre. now exists (rest ++ [lastPart]).
           ++ apply no_properties_reach, new_child_no_properties.
      * intros [k Hk]. apply Hpre. exists k. simpl. now rewrite Hk.
    + now rewrite (nav_rebuild_other _ _ _ _ _ _ He Hne).
Qed.

(** An object that is no deeper than the descriptor's parent stays an
    object, keeps its properties in their order, and gains at most one
    property, last: the next segment of the descriptor's path. *)
Lemma walk_names_grow parts path node node' properties b :
  walk_ parts node = Ok node' ->
  reach path node = Some (ObjectType properties b) ->
  List.length path <= List.length parts ->
  exists properties',
    reach path node' = Some (ObjectType properties' b)
    /\ (names properties' = names properties
        \/ exists k, names properties' = names properties ++ [k]
                     /\ ~ In k (names properties)
                     /\ path ++ [k] `prefix_of` parts ++ [lastPart]).
Proof.
  revert path node node'. induction parts as [|n rest IH];
    intros path node node' H Hreach Hlen.
  - destruct path; [|simpl in Hlen; lia]. injection Hreach as ->.
    apply assign_leaf_Ok in H as (ps & b' & leaf & Heq & Hl & Hr & ->).
    injection Heq as <- <-.
    exists (Js.set lastPart leaf properties). split; [reflexivity|].
    unfold names. rewrite set_names.
    destruct (Js.get lastPart properties) eqn:Eg; [now left|right].
    exists lastPart. repeat split; [now apply get_None|now exists []].
  - apply walk_cons_Ok in H as (ps & b' & c & He & Hw & ->).
    destruct path as [|p path].
    + injection Hreach as ->. apply enter_object in He as (Hn & -> & ->).
      unfold rebuild. apply String.eqb_neq in Hn. rewrite Hn.
      exists (Js.set n c properties). split; [reflexivity|].
      unfold names. rewrite set_names.
      destruct (Js.get n properties) eqn:Eg; [now left|right].
      exists n. repeat split; [now apply get_None|].
      now exists (rest ++ [lastPart]).
    + simpl in Hreach |- *. destruct (String.eqb_spec p n) as [->|Hne].
      * rewrite (nav_rebuild_same _ _ _ _ _ _ He), get_set_eq.
        rewrite (nav_enter _ _ _ _ He) in Hreach. unfold child_of in Hw.
        destruct (Js.get n ps) as [c0|]; [|discriminate].
        destruct (IH path c0 c Hw Hreach) as (ps' & Hr' & Hnames);
          [simpl in Hlen; lia|].
        exists ps'. split; [assumption|].
        destruct Hnames as [?|(k & ? & ? & [t Ht])]; [now left|right].
        exists k. repeat split; try assumption.
        exists t. simpl. now rewrite Ht.
      * rewrite (nav_rebuild_other _ _ _ _ _ _ He Hne).
        exists properties. split; [assumption|now left].
Qed.
(** A position that the descriptor's path neither leads to nor passes
    through is left as it is. *)
Lemma walk_keeps_unrelated parts path node node' :
  walk_ parts node = Ok node' ->
  ~ path `prefix_of` parts ++ [lastPart] ->
  ~ parts ++ [lastPart] `prefix_of` path ->
  reach path node' = reach path node.
Proof.
  revert path node node'. induction parts as [|n rest IH];
    intros path node node' H Hout Hin.
  - apply assign_leaf_Ok in H as (ps & b & leaf & -> & Hl & Hr & ->).
    destruct path as [|p path]; [exfalso; apply Hout; now exists [lastPart]|].
    simpl. unfold nav, enter.
    destruct (String.eqb_spec p "*") as [->|Hp]; [reflexivity|].
    destruct (String.eqb_spec lastPart p) as [->|Hne].
    + exfalso. apply Hin. now exists path.
    + now rewrite get_set_ne by assumption.
  - apply walk_cons_Ok in H as (ps & b & c & He & Hw & ->).
    destruct path as [|p path];
      [exfalso; apply Hout; now exists (n :: rest ++ [lastPart])|].
    simpl. destruct (String.eqb_spec p n) as [->|Hne].
    + rewrite (nav_rebuild_same _ _ _ _ _ _ He), get_set_eq.
      assert (~ path `prefix_of` rest ++ [lastPart]) as Hout'.
      { intros [k Hk]. apply Hout. exists k. simpl. now rewrite Hk. }
      assert (~ rest ++ [lastPart] `prefix_of` path) as Hin'.
      { intros [k Hk]. apply Hin. exists k. simpl. now rewrite Hk. }
      destruct (child_of_nav n rest node ps b He) as [(c0 & Hn & Hc)|[Hn Hc]];
        rewrite Hn, Hc in *.
      * now apply (IH path c0 c).
      * apply (walk_creates_on_path _ _ _ _ Hw); [|assumption].
        destruct path as [|q path].
        -- exfalso. apply Hout. now exists (rest ++ [lastPart]).
        -- apply no_properties_reach, new_child_no_properties.
    + now rewrite (nav_rebuild_other _ _ _ _ _ _ He Hne).
Qed.
End Paths.

(** ** One descriptor *)

Lemma segments_split f : segments f = parent_path f ++ [leaf_name f].
Proof. apply app_removelast_last, split_not_nil. Qed.

Lemma parent_path_length f : List.length (parent_path f) = depth f.
Proof.
  pose proof (split_length (valueName f)) as H. fold (segments f) in H.
  rewrite segments_split, List.length_app in H. simpl in H. unfold depth. lia.
Qed.

Lemma segments_inj f g : segments f = segments g -> valueName f = valueName g.
Proof. apply split_inj. Qed.

Lemma add_item_walk f tree :
  add_item f tree = walk f (leaf_name f) (parent_path f) tree.
Proof.
  unfold add_item. fold (segments f). rewrite segments_split, pop_snoc. reflexivity.
Qed.

Lemma reach_app p1 p2 node :
  reach (p1 ++ p2) node
  = match reach p1 node with Some c => reach p2 c | None => None end.
Proof.
  revert node. induction p1 as [|s p1 IH]; intros node; simpl; [reflexivity|].
  destruct (nav s node); [apply IH|reflexivity].
Qed.

Lemma nav_object s properties b :
  s <> "*" -> nav s (ObjectType properties b) = Js.get s properties.
Proof.
  intros H. unfold nav, enter. apply String.eqb_neq in H. now rewrite H.
Qed.

(** ** The loop over the sorted descriptors *)

Lemma forEach_cons_Ok {A S : Type} (f : A -> S -> result S) l1 x l2 s s' :
  forEach f (l1 ++ x :: l2) s = Ok s' ->
  exists s1 s2, forEach f l1 s = Ok s1 /\ f x s1 = Ok s2 /\ forEach f l2 s2 = Ok s'.
Proof.
  rewrite forEach_app. destruct (forEach f l1 s) as [s1|]; simpl; [|discriminate].
  destruct (f x s1) as [s2|] eqn:E; simpl; [|discriminate].
  intros H. now exists s1, s2.
Qed.

Lemma sorted_middle {A : Type} (R : A -> A -> Prop) l1 x l2 :
  StronglySorted R (l1 ++ x :: l2) ->
  Forall (fun a => R a x) l1 /\ Forall (R x) l2.
Proof.
  induction l1 as [|a l1 IH]; simpl; intros H; inversion H as [|? ? Hs Ha]; subst.
  - split; [constructor|assumption].
  - destruct (IH Hs) as [H1 H2]. split; [|assumption].
    constructor; [|assumption].
    apply List.Forall_app in Ha as [_ Ha]. now inversion Ha.
Qed.

(** So does a descriptor whose declared type does not resolve. *)
Lemma unresolved_throws fs f e :
  In f fs -> resolveType f = Throw e -> throws (unflattenAndResolveTypes fs) = true.
Proof.
  intros Hin Hr. unfold unflattenAndResolveTypes.
  apply (forEach_throws add_item f); [now apply (proj1 (sort_In _ _))|].
  intros tree. rewrite add_item_walk. now apply (walk_unresolved_throws _ _ _ _ e).
Qed.

(** ** Order of the properties *)

Lemma before_app_r {A : Type} (x y : A) l extra :
  before x y l -> before x y (l ++ extra).
Proof.
  intros (l1 & l2 & l3 & ->). exists l1, l2, (l3 ++ extra).
  now rewrite <- !List.app_assoc, <- !List.app_comm_cons, <- !List.app_assoc.
Qed.

Lemma before_app_l {A : Type} (x y : A) l extra :
  before x y l -> before x y (extra ++ l).
Proof.
  intros (l1 & l2 & l3 & ->). exists (extra ++ l1), l2, l3.
  now rewrite <- List.app_assoc.
Qed.

Lemma before_snoc {A : Type} (x y : A) l : In x l -> before x y (l ++ [y]).
Proof.
  intros H. apply in_split in H as (l1 & l2 & ->). exists l1, l2, [].
  now rewrite <- List.app_assoc.
Qed.

Lemma named_entries_app {V : Type} (l1 l2 : list (string * V)) :
  Js.named_entries (l1 ++ l2) = Js.named_entries l1 ++ Js.named_entries l2.
Proof.
  induction l1 as [|[k v] l1 IH]; simpl; [reflexivity|].
  destruct (Js.array_index k); simpl; now rewrite IH.
Qed.

(** Among the names that are no array indices, enumeration follows the
    creation order. *)
Lemma keys_before {V : Type} (x y : string) (l : list (string * V)) :
  before x y (List.map fst l) ->
  Js.array_index x = None -> Js.array_index y = None ->
  before x y (Js.keys l).
Proof.
  intros (n1 & n2 & n3 & E) Hx Hy.
  apply List.map_eq_app in E as (l1 & r1 & -> & <- & E).
  apply List.map_eq_cons in E as ([kx vx] & r2 & -> & Ex & E). simpl in Ex. subst kx.
  apply List.map_eq_app in E as (l2 & r3 & -> & <- & E).
  apply List.map_eq_cons in E as ([ky vy] & l3 & -> & Ey & <-). simpl in Ey. subst ky.
  unfold Js.keys, Js.entries. rewrite List.map_app. apply before_app_l.
  rewrite named_entries_app. simpl. rewrite Hx. rewrite named_entries_app. simpl.
  rewrite Hy. rewrite !List.map_app. simpl. rewrite List.map_app. simpl.
  now eexists _, _, _.
Qed.

(** Siblings of one parent keep their input order in the parent. *)
Lemma siblings_in_input_order fs f1 f2 tree :
  List.NoDup (List.map valueName fs) ->
  before f1 f2 fs ->
  parent_path f1 = parent_path f2 ->
  unflattenAndResolveTypes fs = Ok tree ->
  exists properties b,
    reach (parent_path f1) tree = Some (ObjectType properties b)
    /\ before (leaf_name f1) (leaf_name f2) (names properties).
Proof.
  intros Hnodup Hbefore Hparent Hrun.
  assert (depth f1 = depth f2) as Hdepth
      by (rewrite <- !parent_path_length; now rewrite Hparent).
  unfold unflattenAndResolveTypes in Hrun.
  pose proof (sort_sorted fs) as Hsorted.
  assert (List.NoDup (List.map valueName (Js.sort by_dots fs))) as Hnd.
  { eapply Permutation_NoDup; [|exact Hnodup].
    apply Permutation_map. symmetry. apply sort_permutation. }
  destruct (sort_stable f1 f2 fs Hbefore) as (m1 & m2 & m3 & E); [lia|].
  rewrite E in Hrun, Hsorted, Hnd. clear E.
  set (P := parent_path f1) in *. set (d := depth f1) in *.
  (* what the order of the sorted list says *)
  assert (forall x, In x (m1 ++ f1 :: m2) ->
                    depth x <= d /\ valueName x <> valueName f2) as Hearly.
  { intros x Hx. split.
    - replace (m1 ++ f1 :: m2 ++ f2 :: m3) with ((m1 ++ f1 :: m2) ++ f2 :: m3)
        in Hsorted by (now rewrite <- List.app_assoc).
      destruct (sorted_middle _ _ _ _ Hsorted) as [H1 _].
      rewrite List.Forall_forall in H1. specialize (H1 _ Hx).
      unfold shallower in H1. lia.
    - replace (m1 ++ f1 :: m2 ++ f2 :: m3) with ((m1 ++ f1 :: m2) ++ f2 :: m3)
        in Hnd by (now rewrite <- List.app_assoc).
      rewrite List.map_app in Hnd. simpl in Hnd.
      apply List.NoDup_remove_2 in Hnd. intros Heq. apply Hnd.
      apply in_or_app. left. rewrite <- Heq. now apply in_map. }
  assert (forall x, In x (m2 ++ f2 :: m3) -> d <= depth x) as Hlate.
  { intros x Hx. destruct (sorted_middle _ _ _ _ Hsorted) as [_ H2].
    rewrite List.Forall_forall in H2. now apply H2. }
  (* the run, descriptor by descriptor *)
  apply forEach_cons_Ok in Hrun as (t1 & t2 & Hm1 & Hadd1 & Hrun).
  apply forEach_cons_Ok in Hrun as (t3 & t4 & Hmid & Hadd2 & Hlast).
  assert (forEach add_item (m1 ++ f1 :: m2) root = Ok t3) as Hfirst.
  { rewrite forEach_app, Hm1. simpl. rewrite Hadd1. exact Hmid. }
  (* (A) nothing sits at the place of the second leaf before its turn *)
  assert (reach (segments f2) t3 = None) as Hfree.
  { refine (forEach_invariant add_item (fun t => reach (segments f2) t = None)
              (m1 ++ f1 :: m2) _ root t3 _ Hfirst).
    - intros x t t' Hx Ht Hstep. rewrite add_item_walk in Hstep.
      apply (walk_creates_on_path _ _ _ _ _ _ Hstep Ht).
      rewrite <- segments_split. intros [k Hk].
      destruct (Hearly x Hx) as [Hdx Hname]. apply Hname. apply segments_inj.
      assert (k = []) as ->.
      { apply (f_equal (@List.length _)) in Hk.
        rewrite List.length_app, (segments_split x), (segments_split f2),
          !List.length_app, !parent_path_length in Hk.
        simpl in Hk. destruct k; [reflexivity|simpl in Hk; lia]. }
      now rewrite List.app_nil_r in Hk.
    - pose proof (split_not_nil "."%char (valueName f2)) as Hne.
      fold (segments f2) in Hne.
      destruct (segments f2); [contradiction|now apply no_properties_reach]. }
  (* (B) the first leaf is in place after its turn *)
  rewrite add_item_walk in Hadd1. fold P in Hadd1.
  destruct (walk_reaches _ _ _ _ _ Hadd1) as (ps2 & b & leaf1 & _ & _ & Hr2 & Hg2).
  (* (C) and its parent keeps it *)
  assert (exists ps, reach P t3 = Some (ObjectType ps b) /\ In (leaf_name f1) (names ps))
    as (ps3 & Hr3 & Hin3).
  { refine (forEach_invariant add_item
              (fun t => exists ps, reach P t = Some (ObjectType ps b)
                                   /\ In (leaf_name f1) (names ps))
              m2 _ t2 t3 _ Hmid).
    - intros x t t' Hx (ps & Hr & Hin) Hstep. rewrite add_item_walk in Hstep.
      destruct (walk_names_grow _ _ _ P _ _ _ _ Hstep Hr) as (ps' & Hr' & Hn).
      + rewrite parent_path_length. unfold P. rewrite parent_path_length.
        apply Hlate. apply in_or_app. now left.
      + exists ps'. split; [assumption|].
        destruct Hn as [->|(k & -> & _)]; [assumption|apply in_or_app; now left].
    - exists ps2. split; [assumption|]. now apply (get_Some_In _ leaf1). }
  (* (D) the second leaf goes last *)
  rewrite add_item_walk in Hadd2. rewrite <- Hparent in Hadd2. fold P in Hadd2.
  destruct (walk_reaches _ _ _ _ _ Hadd2) as (ps4 & b4 & leaf2 & _ & Hstar & Hr4 & Hg4).
  destruct (walk_names_grow _ _ _ P _ _ _ _ Hadd2 Hr3 (le_n _)) as (ps4' & Hr4' & Hn4).
  rewrite Hr4 in Hr4'. injection Hr4' as <- <-.
  assert (~ In (leaf_name f2) (names ps3)) as Hnot.
  { apply get_None. rewrite segments_split, <- Hparent, reach_app in Hfree.
    fold P in Hfree. rewrite Hr3 in Hfree. simpl in Hfree.
    rewrite nav_object in Hfree by assumption.
    now destruct (Js.get (leaf_name f2) ps3). }
  assert (before (leaf_name f1) (leaf_name f2) (names ps4)) as Hb4.
  { apply get_Some_In in Hg4. fold (names ps4) in Hg4.
    destruct Hn4 as [En|(k & En & _ & _)]; rewrite En in Hg4 |- *.
    - contradiction.
    - apply in_app_or in Hg4 as [|[->|[]]]; [contradiction|].
      now apply before_snoc. }
  (* (E) and later descriptors only add after it *)
  refine (forEach_invariant add_item
            (fun t => exists ps b0, reach P t = Some (ObjectType ps b0)
                                    /\ before (leaf_name f1) (leaf_name f2) (names ps))
            m3 _ t4 tree _ Hlast).
  - intros x t t' Hx (ps & b0 & Hr & Hb) Hstep. rewrite add_item_walk in Hstep.
    destruct (walk_names_grow _ _ _ P _ _ _ _ Hstep Hr) as (ps' & Hr' & Hn).
    + rewrite parent_path_length. unfold P. rewrite parent_path_length.
      apply Hlate. apply in_or_app. right. now right.
    + exists ps', b0. split; [assumption|].
      destruct Hn as [->|(k & -> & _)]; [assumption|now apply before_app_r].
  - do 2 eexists. split; [exact Hr4|exact Hb4].
Qed.

(** ** The emitter on an object *)

Lemma stringifyTypes_object properties b :
  stringifyTypes (ObjectType properties b)
  = stringifyObject (render_properties properties).
Proof.
  simpl. f_equal. induction properties as [|[k t] ps IH]; simpl; [reflexivity|].
  now rewrite IH.
Qed.

Section EntriesMap.
Context {V W : Type} (g : V -> W).
#[local] Abbreviation h := (on_value g).
#[local] Abbreviation H := (on_indexed_value g).

Lemma insert_index_map n kv l :
  Js.insert_index n (h kv) (List.map H l) = List.map H (Js.insert_index n kv l).
Proof.
  induction l as [|[m kv'] l IH]; simpl; [reflexivity|].
  destruct (n <? m)%N; simpl; [reflexivity|now rewrite IH].
Qed.

Lemma index_entries_map l :
  Js.index_entries (List.map h l) = List.map H (Js.index_entries l).
Proof.
  induction l as [|kv l IH]; simpl; [reflexivity|].
  destruct (Js.array_index (fst kv)); [|assumption].
  rewrite IH. apply insert_index_map.
Qed.

Lemma named_entries_map l :
  Js.named_entries (List.map h l) = List.map h (Js.named_entries l).
Proof.
  induction l as [|kv l IH]; simpl; [reflexivity|].
  destruct (Js.array_index (fst kv)); simpl; now rewrite IH.
Qed.

(** Enumeration looks at the keys only. *)
Lemma entries_map l : Js.entries (List.map h l) = List.map h (Js.entries l).
Proof.
  unfold Js.entries.
  rewrite index_entries_map, named_entries_map, List.map_app, !List.map_map.
  reflexivity.
Qed.
End EntriesMap.

(** The properties of an object are printed in the order of [Js.keys]. *)
Lemma rendered_keys properties :
  Js.keys (render_properties properties) = Js.keys properties.
Proof.
  unfold Js.keys, render_properties.
  rewrite (entries_map (fun t => (base_of t, stringifyTypes t))), List.map_map.
  reflexivity.
Qed.

Lemma split_no_dot s : Js.count_dots s = 0 -> Js.split "."%char s = [s].
Proof.
  induction s as [|c s IH]; simpl; [reflexivity|].
  destruct (Ascii.eqb c "."%char); [discriminate|].
  intros H. now rewrite IH.
Qed.

(** ** The builder over the store *)

Section Store.
Implicit Types (σ : Heap.store) (refs : list Heap.loc) (fs : list Field).

Lemma read_records_spec σ refs fs :
  mapM (fun r => Heap.records σ !! r) refs = Some fs ->
  Heap.read_records refs σ = Some (Ok (zip refs fs), σ).
Proof.
  revert fs. induction refs as [|r refs IH]; intros fs H.
  - now injection H as <-.
  - simpl in H. simpl. unfold Heap.bind, Heap.read_record.
    destruct (Heap.records σ !! r) as [f|]; [|discriminate]. simpl in H.
    destruct (mapM _ refs) as [fs'|]; [|discriminate]. simpl in H.
    injection H as <-. now rewrite (IH fs' eq_refl).
Qed.

Lemma mapM_records_length σ refs fs :
  mapM (fun r => Heap.records σ !! r) refs = Some fs ->
  List.length fs = List.length refs.
Proof.
  revert fs. induction refs as [|r refs IH]; intros fs H.
  - now injection H as <-.
  - simpl in H. destruct (Heap.records σ !! r); [|discriminate]. simpl in H.
    destruct (mapM _ refs) as [fs'|]; [|discriminate]. injection H as <-.
    simpl. now rewrite (IH fs' eq_refl).
Qed.

Lemma mapM_records_zip σ refs fs :
  mapM (fun r => Heap.records σ !! r) refs = Some fs ->
  Forall (fun p => Heap.records σ !! fst p = Some (snd p)) (zip refs fs).
Proof.
  revert fs. induction refs as [|r refs IH]; intros fs H.
  - injection H as <-. constructor.
  - simpl in H. destruct (Heap.records σ !! r) as [f|] eqn:E; [|discriminate].
    simpl in H. destruct (mapM _ refs) as [fs'|]; [|discriminate].
    injection H as <-. simpl. constructor; [assumption|now apply IH].
Qed.

Lemma sort_insert_Forall {A : Type} (cmp : A -> A -> Z) (P : A -> Prop) x l :
  P x -> Forall P l -> Forall P (Js.sort_insert cmp x l).
Proof.
  intros Hx Hl. induction Hl as [|y l Hy Hl IH]; simpl.
  - now constructor.
  - destruct (cmp x y <=? 0)%Z; constructor; try assumption.
    now constructor.
Qed.

Lemma sort_Forall {A : Type} (cmp : A -> A -> Z) (P : A -> Prop) l :
  Forall P l -> Forall P (Js.sort cmp l).
Proof.
  induction 1 as [|x l Hx Hl IH]; simpl; [constructor|].
  now apply sort_insert_Forall.
Qed.

(** Sorting the references by what they point to sorts what they point
    to. *)
Lemma sort_snd {A B : Type} (cmp : B -> B -> Z) (l : list (A * B)) :
  List.map snd (Js.sort (fun x y => cmp (snd x) (snd y)) l)
  = Js.sort cmp (List.map snd l).
Proof.
  induction l as [|x l IH]; simpl; [reflexivity|]. rewrite <- IH.
  generalize (Js.sort (fun x y => cmp (snd x) (snd y)) l). clear IH.
  intros s. induction s as [|y s IH]; simpl; [reflexivity|].
  destruct (cmp (snd x) (snd y) <=? 0)%Z; simpl; [reflexivity|now rewrite IH].
Qed.

Lemma zip_snd {A B : Type} (l : list A) (k : list B) :
  List.length k = List.length l -> List.map snd (zip l k) = k.
Proof.
  revert k. induction l as [|x l IH]; intros [|y k] H; simpl in *;
    try reflexivity; try discriminate.
  now rewrite IH by lia.
Qed.

(** The loop of [forEach] reads the records and runs the callback on the
    tree; it writes nothing. *)
Lemma forEach_from_spec (f : Field -> AnyType -> result AnyType) σ
      (items : list (Heap.loc * Field)) tree :
  Forall (fun p => Heap.records σ !! fst p = Some (snd p)) items ->
  Heap.forEach_from f (List.map fst items) tree σ
  = Some (forEach f (List.map snd items) tree, σ).
Proof.
  intros H. revert tree. induction H as [|[r item] items Hr _ IH]; intros tree.
  - reflexivity.
  - simpl in Hr |- *. unfold Heap.bind, Heap.read_record. rewrite Hr.
    destruct (f item tree) as [tree'|e]; simpl; [apply IH|reflexivity].
Qed.

(** What a run of the builder does to the store and what it returns: a
    new array is allocated for the sorted copy, and nothing that was in
    the store changes. *)
Lemma run_spec σ inputItems refs fs :
  Heap.arrays σ !! inputItems = Some refs ->
  mapM (fun r => Heap.records σ !! r) refs = Some fs ->
  exists copy sorted,
    Heap.arrays σ !! copy = None
    /\ Heap.unflattenAndResolveTypes inputItems σ
       = Some (unflattenAndResolveTypes fs,
               {| Heap.records := Heap.records σ;
                  Heap.arrays := <[copy := sorted]> (Heap.arrays σ) |}).
Proof.
  intros Ha Hfs.
  set (copy := fresh (dom (Heap.arrays σ))).
  assert (Heap.arrays σ !! copy = None) as Hfresh.
  { apply not_elem_of_dom. apply is_fresh. }
  set (items := zip refs fs).
  set (sorted := Js.sort (fun x y => by_dots (snd x) (snd y)) items).
  exists copy, (List.map fst sorted). split; [assumption|].
  unfold Heap.unflattenAndResolveTypes, Heap.bind at 1, Heap.slice.
  rewrite Ha. fold copy.
  set (σ1 := {| Heap.records := Heap.records σ;
                Heap.arrays := <[copy := refs]> (Heap.arrays σ) |}).
  unfold Heap.bind at 1, Heap.sort, Heap.bind at 1, Heap.read_array at 1.
  assert (Heap.arrays σ1 !! copy = Some refs) as -> by apply lookup_insert_eq.
  unfold Heap.bind at 1.
  rewrite (read_records_spec σ1 refs fs Hfs). fold items. fold sorted.
  simpl Heap.records. simpl Heap.arrays. rewrite insert_insert_eq.
  set (σ2 := {| Heap.records := Heap.records σ;
                Heap.arrays := <[copy := List.map fst sorted]> (Heap.arrays σ) |}).
  unfold Heap.forEach, Heap.bind, Heap.read_array.
  assert (Heap.arrays σ2 !! copy = Some (List.map fst sorted)) as ->
      by apply lookup_insert_eq.
  rewrite forEach_from_spec.
  - unfold sorted. rewrite sort_snd. unfold items.
    rewrite zip_snd by (now apply (mapM_records_length σ)). reflexivity.
  - apply sort_Forall. now apply mapM_records_zip.
Qed.
End Store.

(** ** Annotations of a resolved leaf *)

Lemma string_app_nil_r (s : string) : s +:+ EmptyString = s.
Proof. induction s as [|c s IH]; simpl; [reflexivity|now rewrite IH]. Qed.

Lemma getBaseType_no_base s t : getBaseType s = Ok t -> base_of t = no_base.
Proof.
  unfold getBaseType. generalize (String.length s) as n. intros n.
  rewrite getBaseType_depth_eq. destruct (Js.startsWith s ARRAY_PREFIX).
  - destruct n; [discriminate|].
    destruct (getBaseType_depth n _); simpl; [|discriminate].
    intros H. now injection H as <-.
  - repeat match goal with
           | |- context [String.eqb ?x ?c] => destruct (String.eqb x c)
           end; intros H; try discriminate; now injection H as <-.
Qed.

Lemma resolveType_annotations field :
  resolveType field
  = (type ← getBaseType (valueType field); Ok (with_base (annotations field) type)).
Proof.
  unfold resolveType.
  destruct (getBaseType (valueType field)) as [t|e] eqn:E; simpl; [|reflexivity].
  rewrite (getBaseType_no_base _ _ E).
  destruct field as [r|r]; simpl; [|reflexivity].
  do 2 f_equal. unfold jsdoc_append.
  destruct (nonempty (valueRestrictions r)), (nonempty (valueOptionalBehavior r));
    simpl; rewrite ?string_app_nil_r, ?string_app_assoc; reflexivity.
Qed.

Lemma annotations_with_type t f : annotations (with_type t f) = annotations f.
Proof. now destruct f. Qed.

Lemma valueName_with_type t f : valueName (with_type t f) = valueName f.
Proof. now destruct f. Qed.

Lemma valueType_with_type t f : valueType (with_type t f) = t.
Proof. now destruct f. Qed.

Lemma base_of_with_base b t : base_of (with_base b t) = b.
Proof. now destruct t. Qed.

(** ** An entity of one descriptor *)

Lemma single_leaf_tree f leaf :
  depth f = 0 -> valueName f <> "*" -> resolveType f = Ok leaf ->
  unflattenAndResolveTypes [f] = Ok (ObjectType [(valueName f, leaf)] no_base).
Proof.
  intros Hd Hn Hr. unfold unflattenAndResolveTypes. simpl.
  unfold add_item. rewrite (split_no_dot _ Hd). simpl.
  unfold assign_leaf. apply String.eqb_neq in Hn. rewrite Hn, Hr. reflexivity.
Qed.

Lemma single_leaf_render f leaf :
  depth f = 0 -> valueName f <> "*" -> resolveType f = Ok leaf ->
  render_entity [f]
  = Ok (Js.join newline
          (["{"] ++ property_lines (valueName f) (base_of leaf) (stringifyTypes leaf)
           ++ ["}"])).
Proof.
  intros Hd Hn Hr. unfold render_entity.
  rewrite (single_leaf_tree f leaf Hd Hn Hr).
  change (Ok (stringifyTypes (ObjectType [(valueName f, leaf)] no_base)) = 
          Ok (Js.join newline
                (["{"] ++ property_lines (valueName f) (base_of leaf) (stringifyTypes leaf)
                 ++ ["}"]))).
  rewrite stringifyTypes_object. unfold stringifyObject, render_properties. simpl List.map.
  unfold Js.keys. rewrite entries_singleton. simpl. rewrite List.app_nil_r. reflexivity.
Qed.

Lemma join_lines_type (docs : list string) (name sep : string) :
  List.length docs <= 1 ->
  exists before_type,
    forall type,
      Js.join newline (["{"] ++ (docs ++ [name +:+ sep +:+ " " +:+ type +:+ ";"]) ++ ["}"])
      = before_type +:+ type +:+ (";" +:+ newline +:+ "}").
Proof.
  intros Hlen. destruct docs as [|d [|? ?]]; [| |simpl in Hlen; lia].
  - exists ("{" +:+ newline +:+ name +:+ sep +:+ " "). intros T. simpl.
    repeat (progress (rewrite ?string_app_assoc; simpl)). reflexivity.
  - exists ("{" +:+ newline +:+ d +:+ newline +:+ name +:+ sep +:+ " "). intros T.
    simpl. repeat (progress (rewrite ?string_app_assoc; simpl)). reflexivity.
Qed.

Lemma string_app_inv_tail (a b s1 s2 : string) :
  a +:+ s1 = b +:+ s2 -> String.length s1 = String.length s2 -> s1 = s2.
Proof.
  revert b. induction a as [|c a IH]; intros [|d b] H Hlen; simpl in H.
  - assumption.
  - exfalso. apply (f_equal String.length) in H. simpl in H.
    rewrite string_length_app in H. lia.
  - exfalso. apply (f_equal String.length) in H. simpl in H.
    rewrite string_length_app in H. lia.
  - injection H as _ H. now apply (IH b).
Qed.

(** ** Optional markers *)

Lemma never_optional_object properties b :
  never_optional (ObjectType properties b)
  = unmarked b && forallb (fun kv => never_optional (snd kv)) properties.
Proof.
  simpl. f_equal. induction properties as [|[k t] ps IH]; [reflexivity|].
  simpl in *. now rewrite IH.
Qed.

Lemma never_optional_array items b :
  never_optional (ArrayType items b) = unmarked b && never_optional items.
Proof. reflexivity. Qed.

Lemma forallb_set {V : Type} (P : V -> bool) k v (l : list (string * V)) :
  P v = true -> forallb (fun kv => P (snd kv)) l = true ->
  forallb (fun kv => P (snd kv)) (Js.set k v l) = true.
Proof.
  intros Hv. induction l as [|[k0 v0] l IH]; simpl.
  - now rewrite Hv.
  - intros H. apply andb_prop in H as [H0 Hl].
    destruct (String.eqb k0 k); simpl.
    + now rewrite Hv, Hl.
    + now rewrite H0, IH.
Qed.

Lemma forallb_get {V : Type} (P : V -> bool) k v (l : list (string * V)) :
  forallb (fun kv => P (snd kv)) l = true -> Js.get k l = Some v -> P v = true.
Proof.
  induction l as [|[k0 v0] l IH]; simpl; [discriminate|].
  intros H. apply andb_prop in H as [H0 Hl].
  destruct (String.eqb k0 k); [now intros [= <-]|now apply IH].
Qed.

Lemma getBaseType_depth_never_optional n s t :
  getBaseType_depth n s = Ok t -> never_optional t = true.
Proof.
  revert s t. induction n as [|n IH]; intros s t; rewrite getBaseType_depth_eq;
    destruct (Js.startsWith s ARRAY_PREFIX).
  1: discriminate.
  2: { intros H.
       destruct (getBaseType_depth n _) as [i|] eqn:E; simpl in H; [|discriminate].
       injection H as <-. apply IH in E. simpl. exact E. }
  all: repeat match goal with
       | |- context [String.eqb ?x ?c] => destruct (String.eqb x c)
       end; intros H; try discriminate; now injection H as <-.
Qed.

Lemma never_optional_with_base b t :
  unmarked b = true -> never_optional t = true ->
  never_optional (with_base b t) = true.
Proof.
  intros Hb Ht. destruct t; simpl in *; rewrite Hb;
    apply andb_prop in Ht as [_ Ht]; exact Ht.
Qed.

Lemma resolveType_never_optional f t :
  isObsRequestField f = false -> resolveType f = Ok t -> never_optional t = true.
Proof.
  intros Hf. rewrite resolveType_annotations.
  destruct (getBaseType (valueType f)) as [t0|] eqn:E; [|discriminate].
  intros H. injection H as <-. apply never_optional_with_base.
  - now destruct f.
  - now apply (getBaseType_depth_never_optional _ _ _ E).
Qed.

Lemma new_child_never_optional next : never_optional (new_child next) = true.
Proof.
  unfold new_child. destruct next as [n|]; [|reflexivity].
  now destruct (String.eqb n "*").
Qed.

Lemma walk_never_optional item lastPart parts node node' :
  isObsRequestField item = false ->
  never_optional node = true ->
  walk item lastPart parts node = Ok node' ->
  never_optional node' = true.
Proof.
  intros Hitem. revert node node'. induction parts as [|n rest IH];
    intros node node' Hnode H.
  - apply assign_leaf_Ok in H as (ps & b & leaf & -> & _ & Hr & ->).
    rewrite never_optional_object in Hnode |- *.
    apply andb_prop in Hnode as [Hb Hps]. rewrite Hb. simpl.
    apply forallb_set; [|assumption].
    now apply (resolveType_never_optional item).
  - apply walk_cons_Ok in H as (ps & b & c & He & Hw & ->).
    assert (unmarked b = true
            /\ forallb (fun kv => never_optional (snd kv)) ps = true) as [Hb Hps].
    { unfold enter in He. destruct (String.eqb n "*").
      - destruct node as [| | |[| |ps0 b0|] b1]; try discriminate.
        injection He as -> ->. rewrite never_optional_array in Hnode.
        apply andb_prop in Hnode as [_ Hnode].
        rewrite never_optional_object in Hnode. now apply andb_prop in Hnode.
      - injection He as ->. rewrite never_optional_object in Hnode.
        now apply andb_prop in Hnode. }
    assert (never_optional c = true) as Hc.
    { refine (IH _ _ _ Hw). unfold child_of.
      destruct (Js.get n ps) as [c0|] eqn:Eg.
      - now apply (forallb_get never_optional n c0 ps).
      - apply new_child_never_optional. }
    assert (never_optional (ObjectType (Js.set n c ps) b) = true) as Hobj.
    { rewrite never_optional_object, Hb. simpl. now apply forallb_set. }
    unfold rebuild. destruct (String.eqb n "*") eqn:En; [|exact Hobj].
    unfold enter in He. rewrite En in He.
    destruct node as [| | |[| |ps0 b0|] b1]; try discriminate.
    rewrite never_optional_array in Hnode. apply andb_prop in Hnode as [Hb1 _].
    simpl base_of. rewrite never_optional_array. now rewrite Hb1, Hobj.
Qed.

(** ** A leaf nobody else writes *)

(** When no other descriptor has the path of [f] or a path below it, the
    node that [f] resolves to is still at the path of [f] in the built
    tree. *)
Lemma leaf_stays fs f tree :
  In f fs ->
  (forall g, In g fs -> segments f `prefix_of` segments g -> g = f) ->
  unflattenAndResolveTypes fs = Ok tree ->
  exists leaf, resolveType f = Ok leaf /\ reach (segments f) tree = Some leaf.
Proof.
  intros Hf Honly Hrun. unfold unflattenAndResolveTypes in Hrun.
  pose proof (sort_sorted fs) as Hsorted.
  apply (proj1 (sort_In _ _)) in Hf as Hf'.
  apply in_split in Hf' as (l1 & l2 & E). rewrite E in Hsorted, Hrun.
  destruct (sorted_middle _ _ _ _ Hsorted) as [_ H2].
  rewrite List.Forall_forall in H2.
  apply forEach_cons_Ok in Hrun as (t1 & t2 & _ & Hadd & Hrest).
  rewrite add_item_walk in Hadd.
  destruct (walk_reaches _ _ _ _ _ Hadd) as (ps & b & leaf & Hr & Hl & Hreach & Hget).
  exists leaf. split; [assumption|].
  refine (forEach_invariant add_item (fun t => reach (segments f) t = Some leaf)
            l2 _ t2 tree _ Hrest).
  - intros x t t' Hx Ht Hstep. rewrite add_item_walk in Hstep.
    assert (In x fs) as Hxfs.
    { apply sort_In. rewrite E. apply in_or_app. right. now right. }
    destruct (decide (segments f `prefix_of` segments x)) as [Hpre|Hpre].
    + rewrite (Honly x Hxfs Hpre) in Hstep.
      destruct (walk_reaches _ _ _ _ _ Hstep)
        as (ps' & b' & leaf' & Hr' & _ & Hreach' & Hget').
      rewrite Hr in Hr'. injection Hr' as <-.
      rewrite segments_split, reach_app, Hreach'. simpl.
      now rewrite nav_object, Hget'.
    + rewrite <- Ht. apply (walk_keeps_unrelated _ _ _ _ _ _ Hstep).
      * now rewrite <- segments_split.
      * rewrite <- segments_split. intros [k Hk]. apply Hpre.
        assert (k = []) as ->.
        { specialize (H2 x Hx). unfold shallower in H2.
          apply (f_equal (@List.length _)) in Hk.
          rewrite List.length_app, (segments_split x), (segments_split f),
            !List.length_app, !parent_path_length in Hk.
          simpl in Hk. destruct k; [reflexivity|simpl in Hk; lia]. }
        rewrite List.app_nil_r in Hk. rewrite Hk. exists [].
        now rewrite List.app_nil_r.
  - rewrite segments_split, reach_app, Hreach. simpl.
    now rewrite nav_object, Hget.
Qed.

(** * The claims *)

(** C1 (the nested-array scenario).  On [items.*.name] and [items.*.count]
    the builder does descend into the element object of the array [items],
    but the round of the loop that handles the wildcard goes on with the
    segment [*] as a property name: the element object gets one property
    called [*], and [name] and [count] are put under it.  The tree is not
    the one the scenario asks for, and the rendering has the extra level. *)
Theorem C1_wildcard_round_creates_star_property :
  unflattenAndResolveTypes Scenario.nested_array = Ok Scenario.nested_array_built
  /\ Scenario.nested_array_built <> Scenario.nested_array_expected
  /\ render_entity Scenario.nested_array
     = Ok "{
items: Array<{
*: {
name: string;
count?: number;
};
}>;
}"
  /\ stringifyTypes Scenario.nested_array_expected
     = "{
items: Array<{
name: string;
count?: number;
}>;
}".
Proof. repeat split; try reflexivity. discriminate. Qed.

(** C2, counterexample.  The leaf [inputSettings] declared [Object] is
    printed with the type [JsonObject]; declared [Any] it is printed with
    the type [JsonValue].  The two renderings differ. *)
Lemma C2_object_and_any_render_differently :
  render_entity [Scenario.settings_leaf]
  = Ok "{
/**
 * Object of settings
 */
inputSettings: JsonObject;
}"
  /\ render_entity [with_type "Any" Scenario.settings_leaf]
     = Ok "{
/**
 * Object of settings
 */
inputSettings: JsonValue;
}"
  /\ render_entity [Scenario.settings_leaf]
     <> render_entity [with_type "Any" Scenario.settings_leaf].
Proof. repeat split; try reflexivity. discriminate. Qed.

(** C2, amended.  Take an entity that builds and a descriptor of it such
    that no other descriptor has its path or a path below it (and no path
    uses a name of [Object.prototype]).  Declared [Object], the descriptor
    leaves an object without properties at its path, which is printed as
    [JsonObject]; declared [Any], it leaves the opaque node, which is printed
    as [JsonValue].  For the entity made of one descriptor with a
    one-segment path, the two renderings are the same text around these two
    spellings. *)
Theorem C2_empty_object_renders_JsonObject
        (fs : list Field) (f : Field) (tree : AnyType) :
  In f fs ->
  (forall g, In g fs -> segments f `prefix_of` segments g -> g = f) ->
  forallb plain_path fs = true ->
  unflattenAndResolveTypes fs = Ok tree ->
  (valueType f = "Object" ->
   reach (segments f) tree = Some (ObjectType [] (annotations f))
   /\ stringifyTypes (ObjectType [] (annotations f)) = "JsonObject")
  /\ (valueType f = "Any" ->
      reach (segments f) tree = Some (JsonValueType [] (annotations f))
      /\ stringifyTypes (JsonValueType [] (annotations f)) = "JsonValue")
  /\ (fs = [f] -> depth f = 0 ->
      exists before_type after_type,
        render_entity [with_type "Object" f]
        = Ok (before_type +:+ "JsonObject" +:+ after_type)
        /\ render_entity [with_type "Any" f]
           = Ok (before_type +:+ "JsonValue" +:+ after_type)).
Proof.
  intros Hf Honly _ Hrun.
  destruct (leaf_stays fs f tree Hf Honly Hrun) as (leaf & Hr & Hreach).
  rewrite resolveType_annotations in Hr.
  split; [|split].
  - intros Ht. rewrite Ht in Hr. injection Hr as <-. now split.
  - intros Ht. rewrite Ht in Hr. injection Hr as <-. now split.
  - intros -> Hd.
    assert (valueName f <> "*") as Hn.
    { intros Hn. unfold unflattenAndResolveTypes, add_item in Hrun. simpl in Hrun.
      rewrite Hn in Hrun. discriminate. }
    assert (resolveType (with_type "Object" f)
            = Ok (with_base (annotations f) (ObjectType [] no_base))) as Ho.
    { rewrite resolveType_annotations, valueType_with_type, annotations_with_type.
      reflexivity. }
    assert (resolveType (with_type "Any" f)
            = Ok (with_base (annotations f) (JsonValueType [] no_base))) as Ha.
    { rewrite resolveType_annotations, valueType_with_type, annotations_with_type.
      reflexivity. }
    assert (exists docs, List.length docs <= 1 /\ forall type,
               property_lines (valueName f) (annotations f) type
               = docs ++ [valueName f
                          +:+ (if default false (optional (annotations f))
                               then "?:" else ":")
                          +:+ " " +:+ type +:+ ";"]) as (docs & Hlen & Hlines).
    { unfold property_lines. destruct (jsdoc (annotations f)) as [doc|].
      - destruct (Js.truthy doc); eexists; (split; [|reflexivity]); simpl; lia.
      - eexists; (split; [|reflexivity]); simpl; lia. }
    destruct (join_lines_type docs (valueName f)
                (if default false (optional (annotations f)) then "?:" else ":")
                Hlen) as (before_type & Hjoin).
    exists before_type, (";" +:+ newline +:+ "}").
    split.
    + rewrite (single_leaf_render _ _ (eq_trans (f_equal _ (valueName_with_type _ _)) Hd)
                 (fun E => Hn (eq_trans (eq_sym (valueName_with_type _ _)) E)) Ho).
      rewrite base_of_with_base, valueName_with_type, Hlines, Hjoin. reflexivity.
    + rewrite (single_leaf_render _ _ (eq_trans (f_equal _ (valueName_with_type _ _)) Hd)
                 (fun E => Hn (eq_trans (eq_sym (valueName_with_type _ _)) E)) Ha).
      rewrite base_of_with_base, valueName_with_type, Hlines, Hjoin. reflexivity.
Qed.

Lemma C2_empty_object_renders_JsonObject_witness :
  let f := Scenario.settings_leaf in
  let b := {| optional := None; jsdoc := Some "Object of settings" |} in
  let tree := ObjectType [("inputSettings", ObjectType [] b)] no_base in
  unflattenAndResolveTypes [f] = Ok tree
  /\ reach ["inputSettings"] tree = Some (ObjectType [] b)
  /\ stringifyTypes (ObjectType [] b) = "JsonObject".
Proof.
  intros f b tree.
  assert (unflattenAndResolveTypes [f] = Ok tree) as Hrun by reflexivity.
  split; [exact Hrun|].
  assert (forall g, In g [f] -> segments f `prefix_of` segments g -> g = f) as Honly.
  { intros g [<-|[]] _. reflexivity. }
  destruct (C2_empty_object_renders_JsonObject [f] f tree
              (or_introl eq_refl) Honly eq_refl Hrun) as (Hobject & _ & _).
  exact (Hobject eq_refl).
Defined.

(** C3, counterexample.  The response list of [GetVersion] holds a
    descriptor that has a [valueOptional] member, set to true.  Its node is
    marked optional and the field is printed with [?:]. *)
Lemma C3_response_with_valueOptional_is_optional :
  (exists f t,
      In f (responseFields Scenario.optional_response)
      /\ resolveType f = Ok t
      /\ optional (base_of t) = Some true)
  /\ generateObsResponseTypes [Scenario.optional_response]
     = Ok "GetVersion: {
obsVersion?: string;
};".
Proof.
  split; [|reflexivity].
  exists (Scenario.request "obsVersion" "String" true). eexists.
  split; [now left|]. split; reflexivity.
Qed.

(** C3, amended.  Whether a descriptor is handled as a request parameter is
    decided by the presence of its [valueOptional] member alone.  In an
    entity that builds, the node of a descriptor without that member carries
    no optional marker, and its documentation is the description, with no
    restriction or default line; the node of a descriptor with the member
    has [optional] set from it, whatever list the descriptor came from.  When
    no descriptor of the entity has the member, no node of the tree is marked
    optional. *)
Theorem C3_annotations_follow_valueOptional_member
        (fs : list Field) (tree : AnyType) :
  unflattenAndResolveTypes fs = Ok tree ->
  (forall f, In f fs ->
     exists t,
       resolveType f = Ok t
       /\ (isObsRequestField f = false ->
           optional (base_of t) = None
           /\ jsdoc (base_of t) = Some (valueDescription f))
       /\ (forall r, f = RequestField r ->
                     optional (base_of t) = Some (valueOptional r)))
  /\ (forallb (fun f => negb (isObsRequestField f)) fs = true ->
      never_optional tree = true).
Proof.
  intros Hrun. split.
  - intros f Hin. destruct (resolveType f) as [t|e] eqn:Hr.
    + exists t. split; [reflexivity|].
      rewrite resolveType_annotations in Hr.
      destruct (getBaseType (valueType f)) as [t0|]; [|discriminate].
      injection Hr as <-. rewrite base_of_with_base. split.
      * destruct f; [discriminate|]. intros _. split; reflexivity.
      * intros r ->. reflexivity.
    + pose proof (unresolved_throws fs f e Hin Hr) as Ht.
      rewrite Hrun in Ht. discriminate.
  - intros Hall. unfold unflattenAndResolveTypes in Hrun.
    refine (forEach_invariant add_item (fun t => never_optional t = true)
              _ _ root tree eq_refl Hrun).
    intros x t t' Hx Ht Hstep. rewrite add_item_walk in Hstep.
    assert (isObsRequestField x = false) as Hresp.
    { apply sort_In in Hx. rewrite forallb_forall in Hall.
      specialize (Hall x Hx). now destruct (isObsRequestField x). }
    exact (walk_never_optional _ _ _ _ _ Hresp Ht Hstep).
Qed.

Lemma C3_annotations_follow_valueOptional_member_witness :
  let tree :=
    ObjectType
      [("obsVersion",
        PrimitiveType Kstring
          {| optional := None; jsdoc := Some "Current OBS Studio version" |})]
      no_base in
  unflattenAndResolveTypes [Scenario.plain_response] = Ok tree
  /\ never_optional tree = true.
Proof.
  intros tree.
  assert (unflattenAndResolveTypes [Scenario.plain_response] = Ok tree) as Hrun
      by reflexivity.
  split; [exact Hrun|].
  destruct (C3_annotations_follow_valueOptional_member
              [Scenario.plain_response] tree Hrun) as [_ H].
  apply H. reflexivity.
Defined.

(** C4, counterexample.  [Array<Array<Number>>] resolves: the result is an
    array whose element is an array of numbers. *)
Lemma C4_array_of_arrays_resolves :
  getBaseType "Array<Array<Number>>"
  = Ok (ArrayType (ArrayType (PrimitiveType Knumber no_base) no_base) no_base)
  /\ returns (resolveType (Scenario.response "matrix" "Array<Array<Number>>")) = true.
Proof. split; reflexivity. Qed.

(** C4, amended.  [Array<T>] resolves to the array of what [T] resolves
    to, and fails exactly as [T] fails, whatever [T] is; so an array of
    arrays is built whenever its innermost element type resolves. *)
Theorem C4_array_wraps_resolved_element (T : string) :
  getBaseType (ARRAY_PREFIX +:+ T +:+ ">")
  = (items ← getBaseType T; Ok (ArrayType items no_base))
  /\ (forall t, getBaseType T = Ok t ->
        getBaseType (ARRAY_PREFIX +:+ (ARRAY_PREFIX +:+ T +:+ ">") +:+ ">")
        = Ok (ArrayType (ArrayType t no_base) no_base)).
Proof.
  split; [apply getBaseType_array|].
  intros t Ht. now rewrite !getBaseType_array, Ht.
Qed.

(** C5.  Take a field list in which the descriptors of one path [P] do not
    declare an object, and another descriptor whose path continues [P] with
    a property name.  The build throws: the leaf is put at [P] first, since
    it is shallower, and the deeper path finds a node there that is no
    object. *)
Theorem C5_leaf_then_object_conflict_throws
        (fs : list Field) (f g : Field) (s : string) (below : list string) :
  In f fs -> In g fs ->
  (forall f', In f' fs -> valueName f' = valueName f -> valueType f' <> "Object") ->
  segments g = segments f ++ s :: below -> s <> "*" ->
  throws (unflattenAndResolveTypes fs) = true.
Proof.
  intros Hf Hg Htype Hseg Hs.
  assert (depth f < depth g) as Hdepth.
  { rewrite <- !parent_path_length.
    pose proof (f_equal (@List.length _) Hseg) as H.
    rewrite (segments_split g), (segments_split f), !List.length_app in H.
    simpl in H. lia. }
  unfold unflattenAndResolveTypes.
  pose proof (sort_sorted fs) as Hsorted.
  apply (proj1 (sort_In _ _)) in Hf as Hf'. apply (proj1 (sort_In _ _)) in Hg as Hg'.
  apply in_split in Hf' as (l1 & l2 & E). rewrite E in Hsorted, Hg' |- *.
  destruct (sorted_middle _ _ _ _ Hsorted) as [H1 H2].
  rewrite List.Forall_forall in H1, H2.
  apply in_app_or in Hg' as [Hg'|[Hg'|Hg']].
  - specialize (H1 _ Hg'). unfold shallower in H1. lia.
  - subst g. lia.
  - apply in_split in Hg' as (l2a & l2b & ->).
    apply throws_not_Ok. intros tree Hrun.
    apply forEach_cons_Ok in Hrun as (t1 & t2 & _ & Hadd & Hrun).
    apply forEach_cons_Ok in Hrun as (t3 & t4 & Hmid & Hblocked & _).
    (* the leaf of [f] is in place after [f] *)
    rewrite add_item_walk in Hadd.
    destruct (walk_reaches _ _ _ _ _ Hadd) as (ps & b & leaf & Hr & Hl & Hreach & Hget).
    assert (exists L, reach (segments f) t2 = Some L /\ is_object L = false) as Hinv.
    { exists leaf. split.
      - rewrite segments_split, reach_app, Hreach. simpl.
        now rewrite nav_object, Hget.
      - destruct (is_object leaf) eqn:Eo; [|reflexivity].
        exfalso. apply (Htype f Hf eq_refl). now apply (resolveType_object _ _ Hr). }
    (* and stays until [g] comes *)
    assert (exists L, reach (segments f) t3 = Some L /\ is_object L = false)
      as (L & HL & HLo).
    { refine (forEach_invariant add_item
                (fun t => exists L, reach (segments f) t = Some L /\ is_object L = false)
                l2a _ t2 t3 Hinv Hmid).
      intros x t t' Hx (L & HL & HLo) Hstep. rewrite add_item_walk in Hstep.
      apply (walk_keeps_leaf _ _ _ _ _ _ L Hstep HL HLo).
      - assert (depth f <= depth x) as Hle
            by (apply H2; apply in_or_app; now left).
        rewrite <- !parent_path_length in Hle.
        rewrite segments_split, List.length_app. simpl. lia.
      - rewrite <- segments_split. intros Hsame. apply Htype.
        + apply sort_In. rewrite E. apply in_or_app. right. right.
          apply in_or_app. now left.
        + now apply segments_inj. }
    rewrite add_item_walk in Hblocked.
    pose proof (walk_blocked g (leaf_name g) (segments f) (parent_path g) t3 L s below
                  HL HLo) as Hthrows.
    rewrite <- segments_split, Hblocked in Hthrows.
    specialize (Hthrows Hseg Hs). discriminate.
Qed.

Lemma C5_leaf_then_object_conflict_throws_witness :
  let f := Scenario.response "foo" "String" in
  let g := Scenario.response "foo.bar" "Number" in
  In f Scenario.leaf_then_below /\ In g Scenario.leaf_then_below
  /\ segments g = segments f ++ ["bar"]
  /\ throws (unflattenAndResolveTypes Scenario.leaf_then_below) = true.
Proof.
  intros f g.
  assert (In f Scenario.leaf_then_below) as Hf by (right; now left).
  assert (In g Scenario.leaf_then_below) as Hg by now left.
  split; [exact Hf|]. split; [exact Hg|]. split; [reflexivity|].
  apply (C5_leaf_then_object_conflict_throws Scenario.leaf_then_below f g "bar" []);
    try assumption; try reflexivity; try discriminate.
  intros f' [<-|[<-|[]]] _; discriminate.
Defined.

(** C6.  A field list that contains a descriptor whose last segment is the
    wildcard makes the build throw, whatever else the list holds; the list
    [a], [b.c], [b.*] of the scenario is one such list. *)
Theorem C6_trailing_wildcard_throws (fs : list Field) (f : Field) :
  In f fs -> leaf_name f = "*" ->
  throws (unflattenAndResolveTypes fs) = true
  /\ exists currentNode item,
      unflattenAndResolveTypes Scenario.trailing_wildcard
      = Throw (LastStarHandler currentNode item)
      /\ valueName item = "b.*".
Proof.
  intros Hin Hlast. split.
  - unfold unflattenAndResolveTypes.
    apply (forEach_throws add_item f); [now apply (proj1 (sort_In _ _))|].
    intros tree. rewrite add_item_walk. now apply walk_star_throws.
  - do 2 eexists. split; reflexivity.
Qed.

Lemma C6_trailing_wildcard_throws_witness :
  let f := Scenario.response "b.*" "String" in
  In f Scenario.trailing_wildcard /\ leaf_name f = "*"
  /\ throws (unflattenAndResolveTypes Scenario.trailing_wildcard) = true.
Proof.
  intros f.
  assert (In f Scenario.trailing_wildcard) as Hf by (right; right; now left).
  split; [exact Hf|]. split; [reflexivity|].
  apply (C6_trailing_wildcard_throws Scenario.trailing_wildcard f);
    [assumption|reflexivity].
Defined.

(** C7, counterexample.  [a.x] and [b.y] are siblings of different parents
    at the same depth.  Given in the order [a.x], [b.y] the entity is printed
    with [a] first; given in the order [b.y], [a.x] it is printed with [b]
    first: the parents are created in the order in which their first child
    is processed. *)
Lemma C7_order_of_parents_follows_input :
  Permutation Scenario.order_ab Scenario.order_ba
  /\ List.map depth Scenario.order_ab = [1; 1]
  /\ List.map parent_path Scenario.order_ab = [["a"]; ["b"]]
  /\ render_entity Scenario.order_ab
     = Ok "{
a: {
x: string;
};
b: {
y: string;
};
}"
  /\ render_entity Scenario.order_ba
     = Ok "{
b: {
y: string;
};
a: {
x: string;
};
}"
  /\ render_entity Scenario.order_ab <> render_entity Scenario.order_ba.
Proof.
  split; [apply perm_swap|].
  repeat split; try reflexivity. discriminate.
Qed.

(** C7, amended.  In a field list with pairwise distinct paths, none of
    which uses a name of [Object.prototype], two descriptors that have the
    same parent are stored in that parent in the order in which the list
    gives them; and they are printed in that order when neither name is an
    array-index key.  (Nothing is said of siblings of different parents: see
    the counterexample.) *)
Theorem C7_siblings_of_one_parent_keep_input_order
        (fs : list Field) (f1 f2 : Field) (tree : AnyType) :
  List.NoDup (List.map valueName fs) ->
  forallb plain_path fs = true ->
  before f1 f2 fs ->
  parent_path f1 = parent_path f2 ->
  unflattenAndResolveTypes fs = Ok tree ->
  exists properties b,
    reach (parent_path f1) tree = Some (ObjectType properties b)
    /\ before (leaf_name f1) (leaf_name f2) (names properties)
    /\ (Js.array_index (leaf_name f1) = None ->
        Js.array_index (leaf_name f2) = None ->
        before (leaf_name f1) (leaf_name f2) (Js.keys (render_properties properties))).
Proof.
  intros Hnd _ Hb Hp Hrun.
  destruct (siblings_in_input_order fs f1 f2 tree Hnd Hb Hp Hrun)
    as (ps & b & Hreach & Hbefore).
  exists ps, b. repeat split; try assumption.
  intros H1 H2. rewrite rendered_keys. now apply keys_before.
Qed.

Lemma C7_siblings_of_one_parent_keep_input_order_witness :
  let f1 := Scenario.response "p.y" "String" in
  let f2 := Scenario.response "p.x" "String" in
  before f1 f2 Scenario.same_parent
  /\ forallb plain_path Scenario.same_parent = true
  /\ unflattenAndResolveTypes Scenario.same_parent = Ok Scenario.same_parent_tree
  /\ exists properties b,
      reach ["p"] Scenario.same_parent_tree = Some (ObjectType properties b)
      /\ before "y" "x" (names properties)
      /\ (Js.array_index "y" = None -> Js.array_index "x" = None ->
          before "y" "x" (Js.keys (render_properties properties))).
Proof.
  intros f1 f2.
  assert (before f1 f2 Scenario.same_parent) as Hb
      by (now exists [], [Scenario.response "q" "Number"], []).
  split; [exact Hb|]. split; [reflexivity|]. split; [reflexivity|].
  apply (C7_siblings_of_one_parent_keep_input_order Scenario.same_parent f1 f2
           Scenario.same_parent_tree); [|reflexivity|exact Hb|reflexivity|reflexivity].
  repeat constructor; simpl; intuition discriminate.
Defined.

(** C8, counterexample.  The descriptor [sceneName] declares the type
    [Strnig].  The build throws [Unknown type: Strnig]: the message is that
    one line, the path [sceneName] is not in it, and the error carries no
    descriptor. *)
Lemma C8_unknown_type_error_omits_the_path :
  unflattenAndResolveTypes [Scenario.misspelt] = Throw (UnknownType "Strnig")
  /\ headline (UnknownType "Strnig") = "Unknown type: Strnig"
  /\ Js.includes (headline (UnknownType "Strnig")) (valueType Scenario.misspelt) = true
  /\ Js.includes (headline (UnknownType "Strnig")) (valueName Scenario.misspelt) = false
  /\ reported_item (UnknownType "Strnig") = None.
Proof. repeat split; reflexivity. Qed.

(** C8, amended.  A declared type that is neither one of [Boolean],
    [String], [Number], [Object], [Any] nor a text that starts with [Array<]
    makes [resolveType] throw [Unknown type:] followed by the declared type,
    and the build of an entity that contains the descriptor throws.  The
    error is the same for every descriptor that declares this type: it does
    not depend on the path. *)
Theorem C8_unknown_type_throws_naming_the_type (fs : list Field) (f : Field) :
  In f fs ->
  Js.startsWith (valueType f) ARRAY_PREFIX = false ->
  ~ In (valueType f) base_vocabulary ->
  resolveType f = Throw (UnknownType (valueType f))
  /\ headline (UnknownType (valueType f)) = "Unknown type: " +:+ valueType f
  /\ (forall f', valueType f' = valueType f -> resolveType f' = resolveType f)
  /\ throws (unflattenAndResolveTypes fs) = true.
Proof.
  intros Hin Hp Hv.
  assert (forall f', valueType f' = valueType f ->
                     resolveType f' = Throw (UnknownType (valueType f))) as Hr.
  { intros f' E. rewrite resolveType_annotations, E.
    now rewrite (getBaseType_unknown _ Hp Hv). }
  repeat split.
  - now apply Hr.
  - intros f' E. now rewrite (Hr f' E), (Hr f eq_refl).
  - apply (unresolved_throws fs f _ Hin (Hr f eq_refl)).
Qed.

Lemma C8_unknown_type_throws_naming_the_type_witness :
  In Scenario.misspelt [Scenario.misspelt]
  /\ Js.startsWith (valueType Scenario.misspelt) ARRAY_PREFIX = false
  /\ ~ In (valueType Scenario.misspelt) base_vocabulary
  /\ resolveType Scenario.misspelt = Throw (UnknownType "Strnig")
  /\ throws (unflattenAndResolveTypes [Scenario.misspelt]) = true.
Proof.
  assert (In Scenario.misspelt [Scenario.misspelt]) as Hin by now left.
  assert (~ In (valueType Scenario.misspelt) base_vocabulary) as Hv
      by (simpl; intuition discriminate).
  split; [exact Hin|]. split; [reflexivity|]. split; [exact Hv|].
  destruct (C8_unknown_type_throws_naming_the_type
              [Scenario.misspelt] Scenario.misspelt Hin eq_refl Hv)
    as (Hr & _ & _ & Ht).
  split; [exact Hr|exact Ht].
Defined.

(** C9.  An event without data fields is printed as [undefined], and so is
    a request without response fields; a request without request fields is
    printed as [never].  Each generator returns this line before it would
    call the builder, so the line is not the one the emitter prints for an
    object without properties, [JsonObject]. *)
Theorem C9_no_fields_marker (ev : OBSEvent) (request response : OBSRequest) :
  dataFields ev = [] -> requestFields request = [] -> responseFields response = [] ->
  event_line ev = Ok (eventType ev +:+ ": undefined;")
  /\ request_line request = Ok (requestType request +:+ ": never;")
  /\ response_line response = Ok (tab +:+ requestType response +:+ ": undefined;")
  /\ render_entity [] = Ok "JsonObject"
  /\ event_line ev <> Ok (eventType ev +:+ ": " +:+ "JsonObject" +:+ ";")
  /\ request_line request <> Ok (requestType request +:+ ": " +:+ "JsonObject" +:+ ";")
  /\ response_line response
     <> Ok (requestType response +:+ ": " +:+ "JsonObject" +:+ ";").
Proof.
  intros He Hq Hs. unfold event_line, request_line, response_line.
  rewrite He, Hq, Hs. simpl.
  repeat split; try reflexivity.
  - intros H. injection H as H. apply string_app_inv_head in H. discriminate.
  - intros H. injection H as H. apply string_app_inv_head in H. discriminate.
  - intros H. injection H as H.
    change (requestType response +:+ ": JsonObject;")
      with (requestType response +:+ ":" +:+ " JsonObject;") in H.
    rewrite <- (string_app_assoc (requestType response) ":" " JsonObject;") in H.
    pose proof (string_app_inv_tail (tab +:+ requestType response)
                  (requestType response +:+ ":") ": undefined;" " JsonObject;"
                  H eq_refl) as E.
    discriminate.
Qed.

Lemma C9_no_fields_marker_witness :
  dataFields Scenario.no_data_event = []
  /\ generateObsEventTypes [Scenario.no_data_event] = Ok "ExitStarted: undefined;"
  /\ event_line Scenario.no_data_event = Ok "ExitStarted: undefined;"
  /\ request_line Scenario.no_data_request = Ok "StartStream: never;"
  /\ response_line Scenario.no_data_request
     = Ok (tab +:+ "StartStream: undefined;").
Proof.
  split; [reflexivity|]. split; [reflexivity|].
  destruct (C9_no_fields_marker Scenario.no_data_event Scenario.no_data_request
              Scenario.no_data_request eq_refl eq_refl eq_refl)
    as (H1 & H2 & H3 & _).
  split; [exact H1|]. split; [exact H2|exact H3].
Defined.

(** C10.  When the caller's array lists the descriptors [fs], a run of the
    builder on it finishes, returning or throwing what the builder does on
    [fs]; the store it leaves has the same records, every array that was
    there has the elements it had, in the same order, and the caller's array
    still lists [fs].  The sort worked on the copy. *)
Theorem C10_caller_array_unchanged
        (σ : Heap.store) (inputItems : Heap.loc) (fs : list Field) :
  Heap.contents σ inputItems = Some fs ->
  exists σ',
    Heap.unflattenAndResolveTypes inputItems σ
    = Some (unflattenAndResolveTypes fs, σ')
    /\ Heap.records σ' = Heap.records σ
    /\ (forall a, is_Some (Heap.arrays σ !! a) ->
                  Heap.arrays σ' !! a = Heap.arrays σ !! a)
    /\ Heap.contents σ' inputItems = Some fs.
Proof.
  unfold Heap.contents. intros H.
  destruct (Heap.arrays σ !! inputItems) as [refs|] eqn:Ha; [|discriminate].
  simpl in H.
  destruct (run_spec σ inputItems refs fs Ha H) as (copy & sorted & Hfresh & Hrun).
  eexists. split; [exact Hrun|]. simpl.
  assert (forall a, is_Some (Heap.arrays σ !! a) ->
                    <[copy := sorted]> (Heap.arrays σ) !! a = Heap.arrays σ !! a) as Hframe.
  { intros a [x Hx]. apply lookup_insert_ne. intros ->. congruence. }
  split; [reflexivity|]. split; [exact Hframe|].
  rewrite Hframe by (rewrite Ha; eauto). rewrite Ha. exact H.
Qed.

Lemma C10_caller_array_unchanged_witness :
  let fs := [Scenario.response "foo.bar" "Number"; Scenario.response "baz" "String"] in
  Heap.contents Scenario.caller_store 0 = Some fs
  /\ Js.sort by_dots fs <> fs
  /\ exists σ',
      Heap.unflattenAndResolveTypes 0 Scenario.caller_store
      = Some (unflattenAndResolveTypes fs, σ')
      /\ Heap.records σ' = Heap.records Scenario.caller_store
      /\ (forall a, is_Some (Heap.arrays Scenario.caller_store !! a) ->
                    Heap.arrays σ' !! a = Heap.arrays Scenario.caller_store !! a)
      /\ Heap.contents σ' 0 = Some fs.
Proof.
  intros fs.
  assert (Heap.contents Scenario.caller_store 0 = Some fs) as H by reflexivity.
  split; [exact H|]. split; [discriminate|].
  exact (C10_caller_array_unchanged Scenario.caller_store 0 fs H).
Defined.

(** * Further properties *)

(** ** Splitting and joining *)

Lemma split_app_sep c a b :
  Js.split c (a +:+ String c b) = Js.split c a ++ Js.split c b.
Proof.
  induction a as [|d a IH]; simpl.
  - now rewrite Ascii.eqb_refl.
  - destruct (Ascii.eqb d c); [now rewrite IH|].
    rewrite IH. pose proof (split_not_nil c a) as Hne.
    now destruct (Js.split c a).
Qed.

(** Splitting what was joined splits every element again. *)
Lemma split_join c ls :
  ls <> [] ->
  Js.split c (Js.join (String c EmptyString) ls) = flat_map (Js.split c) ls.
Proof.
  induction ls as [|x ls IH]; [contradiction|]. intros _.
  destruct ls as [|y ls].
  - simpl. now rewrite List.app_nil_r.
  - change (Js.join (String c EmptyString) (x :: y :: ls))
      with (x +:+ String c (Js.join (String c EmptyString) (y :: ls))).
    rewrite split_app_sep, IH by discriminate. reflexivity.
Qed.

(** The pieces of a split do not hold the separator. *)
Lemma split_pieces c s : Forall (fun w => Js.split c w = [w]) (Js.split c s).
Proof.
  induction s as [|d s IH]; simpl; [now constructor|].
  destruct (Ascii.eqb d c) eqn:E; [now constructor|].
  pose proof (split_not_nil c s) as Hne.
  destruct (Js.split c s) as [|w ws]; [contradiction|].
  inversion IH as [|? ? Hw Hws]; subst. constructor; [|assumption].
  simpl. now rewrite E, Hw.
Qed.

Lemma split_plain_app c a w :
  Js.split c a = [a] -> Js.split c w = [w] -> Js.split c (a +:+ w) = [a +:+ w].
Proof.
  intros Ha Hw. induction a as [|d a IH]; simpl in *; [assumption|].
  destruct (Ascii.eqb d c); [discriminate|].
  pose proof (split_not_nil c a) as Hne.
  destruct (Js.split c a) as [|x xs] eqn:E; [contradiction|].
  injection Ha as -> ->. now rewrite IH.
Qed.

(** When the character is absent, the search returns what it was given. *)
Lemma lastIndexOf_from_absent c s i :
  (0 <= i)%Z -> Js.lastIndexOf_from c s i (-1) = (-1)%Z ->
  forall j found, Js.lastIndexOf_from c s j found = found.
Proof.
  revert i. induction s as [|d s IH]; intros i Hi H j found; simpl in *;
    [reflexivity|].
  destruct (Ascii.eqb d c).
  - destruct (lastIndexOf_from_bounds c s (i + 1) i) as [E|B]; lia.
  - apply (IH (i + 1)%Z); [lia|assumption].
Qed.

(** ** More on the type resolver *)

Lemma substring_unclosed r :
  Js.substring (ARRAY_PREFIX +:+ r) 6 (-1) = ARRAY_PREFIX.
Proof.
  unfold Js.substring, Js.clamp. rewrite string_length_app.
  change (Z.to_nat (-1)) with 0. change (Z.to_nat 6) with 6.
  change (String.length ARRAY_PREFIX) with 6.
  replace (Nat.min 6 (6 + String.length r)) with 6 by lia.
  change (Nat.min 0 (6 + String.length r)) with 0.
  change (Nat.min 6 0) with 0. change (Nat.max 6 0 - 0) with (String.length ARRAY_PREFIX).
  apply substring_take.
Qed.

Lemma entries_length {V : Type} (l : list (string * V)) :
  List.length (Js.entries l) = List.length l.
Proof.
  unfold Js.entries. rewrite List.length_app, List.length_map.
  induction l as [|kv l IH]; simpl; [reflexivity|].
  destruct (Js.array_index (fst kv)) as [n|]; simpl; [|lia].
  assert (forall s, List.length (Js.insert_index n kv s) = S (List.length s)) as Hi.
  { induction s as [|[m kv'] s IHs]; simpl; [reflexivity|].
    destruct (n <? m)%N; simpl; [reflexivity|now rewrite IHs]. }
  rewrite Hi. lia.
Qed.

(** X1.  Every declared type of the vocabulary, with arrays nested to any
    depth, resolves (the recursion of [getBaseType] ends, on the node one
    expects), and the emitter prints that node as the TypeScript type of
    the declared type. *)
Theorem X1_vocabulary_resolves_and_prints (d : DeclaredType) :
  getBaseType (spell d) = Ok (node_of d)
  /\ stringifyTypes (node_of d) = typescript d.
Proof.
  induction d as [| | | | |d [IHr IHs]]; try (split; reflexivity).
  split.
  - change (spell (DArray d)) with (ARRAY_PREFIX +:+ spell d +:+ ">").
    rewrite getBaseType_array, IHr. reflexivity.
  - change (stringifyTypes (node_of (DArray d)))
      with (if String.eqb (stringifyTypes (node_of d)) "JsonObject"
            then "JsonObject[]"
            else "Array<" +:+ stringifyTypes (node_of d) +:+ ">").
    rewrite IHs. destruct d as [| | | | |d']; try reflexivity.
    destruct d'; reflexivity.
Qed.

(** X2.  A declared type that starts with [Array<] and has no [>] makes
    [getBaseType] call itself on [Array<] for ever: the outcome is the
    engine's [RangeError], not [Unknown type], and a build that holds such
    a descriptor throws. *)
Theorem X2_unclosed_array_exhausts_the_stack (fs : list Field) (f : Field) :
  In f fs ->
  Js.startsWith (valueType f) ARRAY_PREFIX = true ->
  Js.lastIndexOf ">"%char (valueType f) = (-1)%Z ->
  getBaseType (valueType f) = Throw RangeError
  /\ resolveType f = Throw RangeError
  /\ throws (unflattenAndResolveTypes fs) = true.
Proof.
  intros Hin Hp Hl.
  assert (getBaseType (valueType f) = Throw RangeError) as Hg.
  { destruct (prefix_inv _ _ Hp) as [r Hr]. unfold getBaseType.
    rewrite getBaseType_depth_eq, Hp, Hl, Hr, string_length_app.
    change (String.length ARRAY_PREFIX + String.length r)
      with (S (5 + String.length r)).
    now rewrite substring_unclosed, getBaseType_depth_loop. }
  assert (resolveType f = Throw RangeError) as Hr
      by (now rewrite resolveType_annotations, Hg).
  repeat split; try assumption.
  apply (unresolved_throws fs f _ Hin Hr).
Qed.

Lemma X2_unclosed_array_exhausts_the_stack_witness :
  let f := Scenario.response "values" "Array<Number" in
  In f [f]
  /\ Js.lastIndexOf ">"%char (valueType f) = (-1)%Z
  /\ resolveType f = Throw RangeError.
Proof.
  intros f. split; [now left|]. split; [reflexivity|].
  destruct (X2_unclosed_array_exhausts_the_stack [f] f (or_introl eq_refl)
              eq_refl eq_refl) as (_ & H & _).
  exact H.
Defined.

(** X3.  [getBaseType] takes the element type of an array type from
    between [Array<] and the last [>], and does not look at what follows
    that [>]: [Array<T>] followed by any text without [>] resolves as
    [Array<T>] does. *)
Theorem X3_text_after_last_bracket_is_ignored (T junk : string) :
  Js.lastIndexOf ">"%char junk = (-1)%Z ->
  getBaseType (ARRAY_PREFIX +:+ T +:+ ">" +:+ junk)
  = getBaseType (ARRAY_PREFIX +:+ T +:+ ">").
Proof.
  intros Hjunk. rewrite getBaseType_array. unfold getBaseType at 1.
  rewrite !string_length_app. simpl String.length.
  match goal with
  | |- getBaseType_depth ?n _ = _ =>
      replace n with (S (6 + String.length T + String.length junk)) by lia
  end.
  rewrite getBaseType_depth_eq. unfold Js.startsWith. rewrite prefix_app.
  assert (Js.lastIndexOf ">"%char (ARRAY_PREFIX +:+ T +:+ ">" +:+ junk)
          = Z.of_nat (6 + String.length T)) as ->.
  { unfold Js.lastIndexOf. rewrite !lastIndexOf_from_app. simpl.
    rewrite (lastIndexOf_from_absent _ _ 0 (Z.le_refl 0) Hjunk). lia. }
  change 6%Z with (Z.of_nat 6).
  assert (Js.substring (ARRAY_PREFIX +:+ T +:+ ">" +:+ junk) (Z.of_nat 6)
                       (Z.of_nat (6 + String.length T)) = T) as ->.
  { unfold Js.substring, Js.clamp. rewrite !string_length_app. simpl String.length.
    rewrite !Nat2Z.id.
    match goal with
    | |- String.substring _ ?b _ = _ => replace b with (String.length T) by lia
    end.
    match goal with
    | |- String.substring ?a _ _ = _ => replace a with 6 by lia
    end.
    pose proof (substring_skip ARRAY_PREFIX (T +:+ ">" +:+ junk) (String.length T)) as Hs.
    change (String.length ARRAY_PREFIX) with 6 in Hs. rewrite Hs.
    apply substring_take. }
  rewrite getBaseType_enough by lia. reflexivity.
Qed.

Lemma X3_text_after_last_bracket_is_ignored_witness :
  Js.lastIndexOf ">"%char "[]" = (-1)%Z
  /\ getBaseType "Array<Number>[]" = getBaseType "Array<Number>".
Proof.
  split; [reflexivity|].
  exact (X3_text_after_last_bracket_is_ignored "Number" "[]" eq_refl).
Defined.

(** X4.  When the innermost element type of an array type is unknown, at
    whatever depth of nesting, the error names that innermost text and not
    the declared type as protocol.json has it. *)
Theorem X4_nested_unknown_type_names_the_innermost (n : nat) (T : string) (f : Field) :
  Js.startsWith T ARRAY_PREFIX = false ->
  ~ In T base_vocabulary ->
  valueType f = nest n T ->
  getBaseType (nest n T) = Throw (UnknownType T)
  /\ resolveType f = Throw (UnknownType T).
Proof.
  intros Hp Hv Hf.
  assert (getBaseType (nest n T) = Throw (UnknownType T)) as Hg.
  { clear Hf. induction n as [|n IH].
    - apply getBaseType_unknown; assumption.
    - change (nest (S n) T) with (ARRAY_PREFIX +:+ nest n T +:+ ">").
      now rewrite getBaseType_array, IH. }
  split; [assumption|]. now rewrite resolveType_annotations, Hf, Hg.
Qed.

Lemma X4_nested_unknown_type_names_the_innermost_witness :
  let f := Scenario.response "matrix" "Array<Array<Integer>>" in
  Js.startsWith "Integer" ARRAY_PREFIX = false
  /\ ~ In "Integer" base_vocabulary
  /\ valueType f = nest 2 "Integer"
  /\ resolveType f = Throw (UnknownType "Integer").
Proof.
  intros f.
  assert (~ In "Integer" base_vocabulary) as Hv by (simpl; intuition discriminate).
  split; [reflexivity|]. split; [exact Hv|]. split; [reflexivity|].
  destruct (X4_nested_unknown_type_names_the_innermost 2 "Integer" f
              eq_refl Hv eq_refl) as [_ H].
  exact H.
Defined.

(** ** More on the emitter *)

Lemma stringifyTypes_array items b :
  stringifyTypes (ArrayType items b)
  = if String.eqb (stringifyTypes items) "JsonObject" then "JsonObject[]"
    else "Array<" +:+ stringifyTypes items +:+ ">".
Proof. reflexivity. Qed.

(** An object with a property is printed between braces. *)
Lemma stringifyTypes_braces properties b :
  properties <> [] ->
  exists rest, stringifyTypes (ObjectType properties b) = String "{"%char rest.
Proof.
  intros Hne. rewrite stringifyTypes_object. unfold stringifyObject, Js.keys.
  rewrite List.length_map, entries_length. unfold render_properties.
  rewrite List.length_map.
  destruct properties as [|kv ps]; [contradiction|]. simpl Nat.eqb. cbv iota.
  match goal with
  | |- context [["{"] ++ ?l ++ ["}"]] =>
      destruct (l ++ ["}"]) as [|y ys] eqn:E;
      [destruct l; discriminate|]
  end.
  simpl. eexists. reflexivity.
Qed.

Lemma JsonObject_inv u :
  stringifyTypes u = "JsonObject" -> exists b, u = ObjectType [] b.
Proof.
  destruct u as [k ?|ps ?|ps b|i ?]; intros H.
  - destruct k; discriminate.
  - discriminate.
  - destruct ps as [|kv ps]; [now exists b|].
    destruct (stringifyTypes_braces (kv :: ps) b) as [rest Hr]; [discriminate|].
    rewrite Hr in H. discriminate.
  - rewrite stringifyTypes_array in H.
    destruct (String.eqb (stringifyTypes i) "JsonObject"); discriminate.
Qed.

(** X5.  The emitter prints [JsonObject] for an object without properties
    and for no other node, and [JsonObject[]] for an array of such an object
    and for no other node. *)
Theorem X5_JsonObject_means_no_properties (t : AnyType) :
  (stringifyTypes t = "JsonObject" <-> exists b, t = ObjectType [] b)
  /\ (stringifyTypes t = "JsonObject[]"
      <-> exists b b', t = ArrayType (ObjectType [] b) b').
Proof.
  pose proof JsonObject_inv as Hobject.
  split; split.
  - apply Hobject.
  - intros [b ->]. reflexivity.
  - destruct t as [k ?|ps ?|ps b|i b']; intros H.
    + destruct k; discriminate.
    + discriminate.
    + destruct ps as [|kv ps]; [discriminate|].
      destruct (stringifyTypes_braces (kv :: ps) b) as [rest Hr]; [discriminate|].
      rewrite Hr in H. discriminate.
    + rewrite stringifyTypes_array in H.
      destruct (String.eqb_spec (stringifyTypes i) "JsonObject") as [E|_];
        [|discriminate].
      destruct (Hobject i E) as [b ->]. now exists b, b'.
  - intros (b & b' & ->). reflexivity.
Qed.

Lemma flat_map_plain c (prefix : string) (ls : list string) :
  Js.split c prefix = [prefix] ->
  Forall (fun w => Js.split c w = [w]) ls ->
  flat_map (Js.split c) (List.map (fun s => prefix +:+ s) ls)
  = List.map (fun s => prefix +:+ s) ls.
Proof.
  intros Hp. induction 1 as [|w ls Hw _ IH]; simpl; [reflexivity|].
  now rewrite (split_plain_app c prefix w Hp Hw), IH.
Qed.

(** The lines of a documentation block, when no line given to
    [formatJsDoc] holds a line break. *)
Lemma formatJsDoc_lines (jsdoc : list string) :
  Forall (fun w => Js.split "010"%char w = [w]) jsdoc ->
  Js.split "010"%char (formatJsDoc jsdoc)
  = ["/**"] ++ List.map (fun s => " * " +:+ s) jsdoc ++ [" */"].
Proof.
  intros H. unfold formatJsDoc, newline. rewrite split_join by discriminate.
  rewrite !List.flat_map_app.
  rewrite (flat_map_plain "010"%char " * " _ eq_refl H).
  reflexivity.
Qed.

(** X6.  The documentation block of a description has one line per line
    of the description, each after [ * ], between the lines [/**] and
    [ */]: every line break of the block comes from the description or from
    the frame, and no line of the description is lost or merged. *)
Theorem X6_jsdoc_block_keeps_the_lines (doc : string) :
  Js.split "010"%char (formatJsDoc (Js.split "010"%char doc))
  = ["/**"] ++ List.map (fun s => " * " +:+ s) (Js.split "010"%char doc) ++ [" */"].
Proof. apply formatJsDoc_lines, split_pieces. Qed.

(** ** More on the builder: the shape of the tree *)

Section Shape.
Variable item : Field.
Variable lastPart : string.

(** What could be reached stays reachable, down to the depth at which the
    descriptor writes its leaf. *)
Lemma walk_keeps_reachable parts path node node' :
  walk item lastPart parts node = Ok node' ->
  is_Some (reach path node) ->
  List.length path <= S (List.length parts) ->
  is_Some (reach path node').
Proof.
  revert path node node'. induction parts as [|n rest IH];
    intros path node node' H Hreach Hlen.
  - apply assign_leaf_Ok in H as (ps & b & leaf & -> & Hl & Hr & ->).
    destruct path as [|p [|? ?]]; simpl in Hlen; try lia; [now eexists|].
    simpl in Hreach |- *. unfold nav, enter in Hreach |- *.
    destruct (String.eqb_spec p "*") as [->|Hp]; [destruct Hreach; discriminate|].
    destruct (String.eqb_spec lastPart p) as [->|Hne].
    + rewrite get_set_eq. now eexists.
    + now rewrite get_set_ne by assumption.
  - apply walk_cons_Ok in H as (ps & b & c & He & Hw & ->).
    destruct path as [|p path]; [now eexists|].
    simpl in Hreach |- *. destruct (String.eqb_spec p n) as [->|Hne].
    + rewrite (nav_rebuild_same _ _ _ _ _ _ He), get_set_eq.
      rewrite (nav_enter _ _ _ _ He) in Hreach. unfold child_of in Hw.
      destruct (Js.get n ps) as [c0|]; [|destruct Hreach; discriminate].
      apply (IH path c0 c Hw Hreach). simpl in Hlen. lia.
    + now rewrite (nav_rebuild_other _ _ _ _ _ _ He Hne).
Qed.

(** After a successful loop every prefix of the path leads somewhere. *)
Lemma walk_reaches_prefixes parts node node' path :
  walk item lastPart parts node = Ok node' ->
  path `prefix_of` parts ++ [lastPart] ->
  is_Some (reach path node').
Proof.
  intros H [k Hk].
  destruct (walk_reaches _ _ _ _ _ H) as (ps & b & leaf & _ & Hl & Hreach & Hget).
  assert (reach (parts ++ [lastPart]) node' = Some leaf) as Hfull.
  { rewrite reach_app, Hreach. simpl. now rewrite nav_object, Hget. }
  rewrite Hk, reach_app in Hfull.
  destruct (reach path node'); [now eexists|discriminate].
Qed.

(** The loop keeps the names of every property bag distinct. *)
Lemma distinct_names_object properties b :
  distinct_names (ObjectType properties b)
  <-> List.NoDup (names properties)
      /\ Forall (fun kv => distinct_names (snd kv)) properties.
Proof.
  simpl. apply and_iff_compat_l.
  induction properties as [|[k t] ps IH]; simpl.
  - split; [constructor|trivial].
  - rewrite IH. split.
    + intros [Ht Hps]. now constructor.
    + intros H. inversion H; subst. now split.
Qed.

Lemma set_NoDup {V : Type} k (v : V) l :
  List.NoDup (List.map fst l) -> List.NoDup (List.map fst (Js.set k v l)).
Proof.
  intros H. rewrite set_names. destruct (Js.get k l) eqn:E; [assumption|].
  apply get_None in E.
  apply List.NoDup_app; [assumption|repeat constructor; intros []|].
  intros x Hx [<-|[]]. contradiction.
Qed.

Lemma set_Forall {V : Type} (P : V -> Prop) k v (l : list (string * V)) :
  P v -> Forall (fun kv => P (snd kv)) l ->
  Forall (fun kv => P (snd kv)) (Js.set k v l).
Proof.
  intros Hv. induction 1 as [|[k0 v0] l H0 Hl IH]; simpl.
  - now repeat constructor.
  - destruct (String.eqb k0 k); constructor; assumption.
Qed.

Lemma get_Forall {V : Type} (P : V -> Prop) k v (l : list (string * V)) :
  Forall (fun kv => P (snd kv)) l -> Js.get k l = Some v -> P v.
Proof.
  induction 1 as [|[k0 v0] l H0 Hl IH]; simpl; [discriminate|].
  destruct (String.eqb k0 k); [now intros [= <-]|assumption].
Qed.

Lemma getBaseType_depth_distinct_names n s t :
  getBaseType_depth n s = Ok t -> distinct_names t.
Proof.
  revert s t. induction n as [|n IH]; intros s t; rewrite getBaseType_depth_eq;
    destruct (Js.startsWith s ARRAY_PREFIX).
  1: discriminate.
  2: { intros H.
       destruct (getBaseType_depth n _) as [i|] eqn:E; simpl in H; [|discriminate].
       injection H as <-. apply IH in E. exact E. }
  all: repeat match goal with
       | |- context [String.eqb ?x ?c] => destruct (String.eqb x c)
       end; intros H; try discriminate; injection H as <-; simpl;
         repeat split; constructor.
Qed.

Lemma resolveType_distinct_names f t : resolveType f = Ok t -> distinct_names t.
Proof.
  rewrite resolveType_annotations.
  destruct (getBaseType (valueType f)) as [t0|] eqn:E; [|discriminate].
  intros H. injection H as <-. apply getBaseType_depth_distinct_names in E.
  now destruct t0.
Qed.

Lemma new_child_distinct_names next : distinct_names (new_child next).
Proof.
  unfold new_child. destruct next as [n|]; [destruct (String.eqb n "*")|];
    simpl; repeat split; constructor.
Qed.

Lemma walk_distinct_names parts node node' :
  distinct_names node ->
  walk item lastPart parts node = Ok node' ->
  distinct_names node'.
Proof.
  revert node node'. induction parts as [|n rest IH]; intros node node' Hnode H.
  - apply assign_leaf_Ok in H as (ps & b & leaf & -> & _ & Hr & ->).
    apply distinct_names_object in Hnode as [Hnd Hps].
    apply distinct_names_object. split.
    + now apply set_NoDup.
    + apply set_Forall; [|assumption]. now apply (resolveType_distinct_names item).
  - apply walk_cons_Ok in H as (ps & b & c & He & Hw & ->).
    assert (distinct_names (ObjectType ps b)) as Hobj.
    { unfold enter in He. destruct (String.eqb n "*").
      - destruct node as [| | |[| |ps0 b0|] b1]; try discriminate.
        injection He as -> ->. exact Hnode.
      - now injection He as ->. }
    apply distinct_names_object in Hobj as [Hnd Hps].
    assert (distinct_names c) as Hc.
    { refine (IH _ _ _ Hw). unfold child_of.
      destruct (Js.get n ps) as [c0|] eqn:Eg.
      - now apply (get_Forall distinct_names n c0 ps).
      - apply new_child_distinct_names. }
    assert (distinct_names (ObjectType (Js.set n c ps) b)) as Hnew.
    { apply distinct_names_object. split; [now apply set_NoDup|].
      now apply set_Forall. }
    unfold rebuild. now destruct (String.eqb n "*").
Qed.
End Shape.

(** ** More on the depth sort *)

(** In a sorted list the new element goes before elements that are not
    shallower than it. *)
Lemma sort_insert_split_sorted (x : Field) (l : list Field) :
  StronglySorted shallower l ->
  exists pre post,
    l = pre ++ post /\ Js.sort_insert by_dots x l = pre ++ x :: post
    /\ Forall (fun y => depth y < depth x) pre
    /\ Forall (fun y => depth x <= depth y) post.
Proof.
  induction 1 as [|y l Hs IH Hy]; simpl.
  - exists [], []. repeat split; constructor.
  - rewrite by_dots_le. destruct (Nat.leb_spec (depth x) (depth y)).
    + exists [], (y :: l). repeat split; [constructor|].
      constructor; [assumption|].
      eapply List.Forall_impl; [|exact Hy]. unfold shallower. intros; simpl in *; lia.
    + destruct IH as (pre & post & E & Ei & Hpre & Hpost).
      exists (y :: pre), post. rewrite E at 1. rewrite Ei. repeat split; [|assumption].
      constructor; assumption.
Qed.

(** What the sort puts after a descriptor: descriptors that followed it in
    the input, or deeper ones. *)
Lemma sort_after (l1 : list Field) (f : Field) (l2 : list Field) :
  exists m1 m2,
    Js.sort by_dots (l1 ++ f :: l2) = m1 ++ f :: m2
    /\ forall g, In g m2 ->
         (In g l2 /\ depth f <= depth g) \/ depth f < depth g.
Proof.
  induction l1 as [|a l1 (m1 & m2 & E & Hm2)]; simpl.
  - destruct (sort_insert_split_sorted f (Js.sort by_dots l2) (sort_sorted l2))
      as (pre & post & E & -> & _ & Hpost).
    exists pre, post. split; [reflexivity|].
    intros g Hg. left. split.
    + apply sort_In. rewrite E. apply in_or_app. now right.
    + rewrite List.Forall_forall in Hpost. now apply Hpost.
  - rewrite E.
    destruct (sort_insert_split a (m1 ++ f :: m2)) as (pre & post & Epp & -> & Hpre).
    symmetry in Epp. apply List.app_eq_app in Epp as (l & [[-> Hl]|[-> ->]]).
    + destruct l as [|f' l]; simpl in Hl.
      * subst post. exists (m1 ++ [a]), m2. split; [|assumption].
        rewrite List.app_nil_r, <- List.app_assoc. reflexivity.
      * injection Hl as <- ->. exists m1, (l ++ a :: post). split.
        -- rewrite <- List.app_assoc. reflexivity.
        -- intros g Hg. apply in_app_or in Hg as [Hg|[<-|Hg]].
           ++ apply Hm2. apply in_or_app. now left.
           ++ right. rewrite List.Forall_forall in Hpre. apply Hpre.
              apply in_or_app. right. now left.
           ++ apply Hm2. apply in_or_app. now right.
    + exists (pre ++ a :: l), m2. split; [|assumption].
      now rewrite <- List.app_assoc.
Qed.

Lemma at_depth_none d (l : list Field) :
  Forall (fun f => depth f <> d) l -> at_depth d l = [].
Proof.
  unfold at_depth. induction 1 as [|y l Hy _ IH]; simpl; [reflexivity|].
  destruct (Nat.eqb_spec (depth y) d); [contradiction|assumption].
Qed.

(** The sort keeps, for each depth, the descriptors of that depth in their
    order. *)
Lemma at_depth_sort d (l : list Field) : at_depth d (Js.sort by_dots l) = at_depth d l.
Proof.
  unfold at_depth. induction l as [|x l IH]; simpl; [reflexivity|].
  destruct (sort_insert_split x (Js.sort by_dots l)) as (pre & post & E & -> & Hpre).
  rewrite <- IH, E, !List.filter_app. simpl.
  destruct (Nat.eqb_spec (depth x) d) as [Hd|Hd]; [|reflexivity].
  assert (List.filter (fun f => depth f =? d) pre = []) as ->; [|reflexivity].
  apply (at_depth_none d pre).
  eapply List.Forall_impl; [|exact Hpre]. intros; simpl in *; lia.
Qed.

(** Two sorted lists that agree depth by depth are equal. *)
Lemma sorted_by_depth_unique (l1 l2 : list Field) :
  StronglySorted shallower l1 -> StronglySorted shallower l2 ->
  (forall d, at_depth d l1 = at_depth d l2) -> l1 = l2.
Proof.
  intros H1. revert l2. induction H1 as [|x l1 Hs1 IH Hx]; intros l2 H2 Hd.
  - destruct l2 as [|y l2]; [reflexivity|].
    specialize (Hd (depth y)). unfold at_depth in Hd. simpl in Hd.
    rewrite Nat.eqb_refl in Hd. discriminate.
  - destruct H2 as [|y l2 Hs2 Hy].
    + specialize (Hd (depth x)). unfold at_depth in Hd. simpl in Hd.
      rewrite Nat.eqb_refl in Hd. discriminate.
    + assert (depth x = depth y) as Hxy.
      { destruct (Nat.lt_total (depth x) (depth y)) as [Hlt|[Heq|Hgt]];
          [exfalso|assumption|exfalso].
        - specialize (Hd (depth x)).
          rewrite (at_depth_none (depth x) (y :: l2)) in Hd.
          + unfold at_depth in Hd. simpl in Hd. rewrite Nat.eqb_refl in Hd.
            discriminate.
          + constructor; [lia|].
            eapply List.Forall_impl; [|exact Hy]. unfold shallower.
            intros; simpl in *; lia.
        - specialize (Hd (depth y)).
          rewrite (at_depth_none (depth y) (x :: l1)) in Hd.
          + unfold at_depth in Hd. simpl in Hd. rewrite Nat.eqb_refl in Hd.
            discriminate.
          + constructor; [lia|].
            eapply List.Forall_impl; [|exact Hx]. unfold shallower.
            intros; simpl in *; lia. }
      pose proof (Hd (depth x)) as Hhead. unfold at_depth in Hhead. simpl in Hhead.
      rewrite Nat.eqb_refl, <- Hxy, Nat.eqb_refl in Hhead.
      injection Hhead as <- Htail. f_equal. apply IH; [assumption|].
      intros d. specialize (Hd d). unfold at_depth in Hd |- *. simpl in Hd.
      destruct (depth x =? d); [now injection Hd|assumption].
Qed.

(** ** More on the builder: the built tree *)

Lemma build_reaches_prefixes_only fs tree path :
  unflattenAndResolveTypes fs = Ok tree ->
  is_Some (reach path tree) ->
  path = [] \/ exists f, In f fs /\ path `prefix_of` segments f.
Proof.
  unfold unflattenAndResolveTypes. intros Hrun. revert path.
  refine (forEach_invariant add_item
            (fun t => forall path, is_Some (reach path t) ->
                        path = [] \/ exists f, In f fs /\ path `prefix_of` segments f)
            _ _ root tree _ Hrun).
  - intros x t t' Hx Ht Hstep path Hreach. rewrite add_item_walk in Hstep.
    destruct (reach path t) as [c|] eqn:Ec; [apply Ht; now rewrite Ec|].
    destruct (decide (path `prefix_of` segments x)) as [Hpre|Hpre].
    + right. exists x. split; [now apply sort_In|assumption].
    + rewrite segments_split in Hpre.
      rewrite (walk_creates_on_path _ _ _ _ _ _ Hstep Ec Hpre) in Hreach.
      destruct Hreach; discriminate.
  - intros [|s path] Hreach; [now left|].
    rewrite no_properties_reach in Hreach by reflexivity.
    destruct Hreach; discriminate.
Qed.

Lemma build_reaches_prefixes fs f tree path :
  In f fs ->
  unflattenAndResolveTypes fs = Ok tree ->
  path `prefix_of` segments f ->
  is_Some (reach path tree).
Proof.
  intros Hf Hrun Hpre. unfold unflattenAndResolveTypes in Hrun.
  pose proof (sort_sorted fs) as Hsorted.
  apply (proj1 (sort_In _ _)) in Hf as Hf'.
  apply in_split in Hf' as (l1 & l2 & E). rewrite E in Hsorted, Hrun.
  destruct (sorted_middle _ _ _ _ Hsorted) as [_ H2].
  rewrite List.Forall_forall in H2.
  apply forEach_cons_Ok in Hrun as (t1 & t2 & _ & Hadd & Hrest).
  rewrite add_item_walk in Hadd.
  refine (forEach_invariant add_item (fun t => is_Some (reach path t))
            l2 _ t2 tree _ Hrest).
  - intros x t t' Hx Ht Hstep. rewrite add_item_walk in Hstep.
    apply (walk_keeps_reachable _ _ _ _ _ _ Hstep Ht).
    specialize (H2 x Hx). unfold shallower in H2.
    destruct Hpre as [k Hk]. apply (f_equal (@List.length _)) in Hk.
    rewrite segments_split, !List.length_app, !parent_path_length in Hk.
    simpl in Hk. rewrite parent_path_length. lia.
  - apply (walk_reaches_prefixes _ _ _ _ _ _ Hadd). now rewrite <- segments_split.
Qed.

(** X7.  The positions of the built tree are the prefixes of the paths of
    the descriptors, no more and no less: every prefix of every path leads
    to a node, and a path that leads to a node is a prefix of the path of
    some descriptor.  (For paths that use no name of [Object.prototype]; a
    wildcard segment leads through the element of the array to the property
    the builder makes for it.) *)
Theorem X7_positions_are_the_prefixes_of_the_paths
        (fs : list Field) (tree : AnyType) (path : list string) :
  forallb plain_path fs = true ->
  unflattenAndResolveTypes fs = Ok tree ->
  (is_Some (reach path tree)
   <-> path = [] \/ exists f, In f fs /\ path `prefix_of` segments f).
Proof.
  intros _ Hrun. split.
  - now apply build_reaches_prefixes_only.
  - intros [->|(f & Hf & Hpre)]; [now eexists|].
    now apply (build_reaches_prefixes fs f).
Qed.

Lemma X7_positions_are_the_prefixes_of_the_paths_witness :
  forallb plain_path Scenario.same_parent = true
  /\ unflattenAndResolveTypes Scenario.same_parent = Ok Scenario.same_parent_tree
  /\ is_Some (reach ["p"; "x"] Scenario.same_parent_tree)
  /\ ~ is_Some (reach ["p"; "z"] Scenario.same_parent_tree).
Proof.
  split; [reflexivity|]. split; [reflexivity|].
  pose proof (fun path =>
    X7_positions_are_the_prefixes_of_the_paths Scenario.same_parent
      Scenario.same_parent_tree path eq_refl eq_refl) as H.
  split.
  - apply H. right. exists (Scenario.response "p.x" "String").
    split; [right; right; now left|now exists []].
  - intros Hz. apply H in Hz as [Hz|(f & Hf & [k Hk])]; [discriminate|].
    destruct Hf as [<-|[<-|[<-|[]]]]; vm_compute in Hk; discriminate.
Defined.

(** X8.  In every object of a built tree the property names are pairwise
    distinct: a descriptor that names an existing property replaces its
    value and never adds a second property of that name. *)
Theorem X8_property_names_are_distinct (fs : list Field) (tree : AnyType) :
  unflattenAndResolveTypes fs = Ok tree -> distinct_names tree.
Proof.
  unfold unflattenAndResolveTypes. intros Hrun.
  refine (forEach_invariant add_item distinct_names _ _ root tree _ Hrun).
  - intros x t t' _ Ht Hstep. rewrite add_item_walk in Hstep.
    now apply (walk_distinct_names _ _ _ _ _ Ht Hstep).
  - simpl. split; constructor.
Qed.

Lemma X8_property_names_are_distinct_witness :
  unflattenAndResolveTypes Sample.declared_twice = Ok Sample.declared_twice_tree
  /\ distinct_names Sample.declared_twice_tree.
Proof.
  split; [reflexivity|].
  exact (X8_property_names_are_distinct Sample.declared_twice
           Sample.declared_twice_tree eq_refl).
Defined.

(** X9.  When a path is declared more than once, the last descriptor of
    the list that has the path decides the leaf: if no descriptor has a path
    strictly below that of [f] and no later descriptor has the path of [f],
    the built tree holds at the path of [f] the node that [f] resolves
    to. *)
Theorem X9_last_declaration_of_a_path_wins
        (l1 : list Field) (f : Field) (l2 : list Field) (tree : AnyType) :
  forallb plain_path (l1 ++ f :: l2) = true ->
  (forall g, In g l2 -> valueName g <> valueName f) ->
  (forall g, In g (l1 ++ f :: l2) ->
             segments f `prefix_of` segments g -> segments g = segments f) ->
  unflattenAndResolveTypes (l1 ++ f :: l2) = Ok tree ->
  exists leaf, resolveType f = Ok leaf /\ reach (segments f) tree = Some leaf.
Proof.
  intros _ Hlater Hbelow Hrun. unfold unflattenAndResolveTypes in Hrun.
  destruct (sort_after l1 f l2) as (m1 & m2 & E & Hm2).
  assert (forall g, In g m2 -> In g (l1 ++ f :: l2)) as Hin.
  { intros g Hg. apply sort_In. rewrite E. apply in_or_app. right. now right. }
  rewrite E in Hrun.
  apply forEach_cons_Ok in Hrun as (t1 & t2 & _ & Hadd & Hrest).
  rewrite add_item_walk in Hadd.
  destruct (walk_reaches _ _ _ _ _ Hadd) as (ps & b & leaf & Hr & Hl & Hreach & Hget).
  exists leaf. split; [assumption|].
  refine (forEach_invariant add_item (fun t => reach (segments f) t = Some leaf)
            m2 _ t2 tree _ Hrest).
  - intros x t t' Hx Ht Hstep. rewrite add_item_walk in Hstep.
    assert (depth f <= depth x) as Hdepth by (destruct (Hm2 x Hx); lia).
    assert (~ segments f `prefix_of` segments x) as Hpre.
    { intros Hpre. pose proof (Hbelow x (Hin x Hx) Hpre) as Heq.
      destruct (Hm2 x Hx) as [[Hx2 _]|Hlt].
      - apply (Hlater x Hx2). now apply segments_inj.
      - rewrite <- !parent_path_length in Hlt.
        apply (f_equal (@List.length _)) in Heq.
        rewrite (segments_split x), (segments_split f), !List.length_app in Heq.
        simpl in Heq. lia. }
    rewrite <- Ht. apply (walk_keeps_unrelated _ _ _ _ _ _ Hstep).
    + now rewrite <- segments_split.
    + rewrite <- segments_split. intros [k Hk]. apply Hpre.
      assert (k = []) as ->.
      { apply (f_equal (@List.length _)) in Hk.
        rewrite List.length_app, (segments_split x), (segments_split f),
          !List.length_app, !parent_path_length in Hk.
        simpl in Hk. destruct k; [reflexivity|simpl in Hk; lia]. }
      rewrite List.app_nil_r in Hk. rewrite Hk. exists [].
      now rewrite List.app_nil_r.
  - rewrite segments_split, reach_app, Hreach. simpl.
    now rewrite nav_object, Hget.
Qed.

Lemma X9_last_declaration_of_a_path_wins_witness :
  let f := Scenario.response "settings" "Number" in
  unflattenAndResolveTypes Sample.declared_twice = Ok Sample.declared_twice_tree
  /\ exists leaf,
      resolveType f = Ok leaf
      /\ reach ["settings"] Sample.declared_twice_tree = Some leaf.
Proof.
  intros f. split; [reflexivity|].
  apply (X9_last_declaration_of_a_path_wins
           [Scenario.response "settings" "String"; Scenario.response "name" "String"]
           f [] Sample.declared_twice_tree); [reflexivity| | |reflexivity].
  - intros g [].
  - intros g [<-|[<-|[<-|[]]]] [k Hk]; try reflexivity.
    vm_compute in Hk. discriminate.
Defined.

(** X10.  Only the order of the descriptors within each depth matters to
    the builder: two field lists that hold, for every depth, the same
    descriptors of that depth in the same order give the same result, tree
    or error. *)
Theorem X10_only_the_order_within_a_depth_matters (fs fs' : list Field) :
  (forall d, at_depth d fs = at_depth d fs') ->
  unflattenAndResolveTypes fs = unflattenAndResolveTypes fs'.
Proof.
  intros H. unfold unflattenAndResolveTypes. f_equal.
  apply sorted_by_depth_unique; try apply sort_sorted.
  intros d. now rewrite !at_depth_sort.
Qed.

Lemma X10_only_the_order_within_a_depth_matters_witness :
  (forall d, at_depth d Sample.deep_first = at_depth d Sample.deep_last)
  /\ Sample.deep_first <> Sample.deep_last
  /\ unflattenAndResolveTypes Sample.deep_first
     = unflattenAndResolveTypes Sample.deep_last.
Proof.
  assert (forall d, at_depth d Sample.deep_first = at_depth d Sample.deep_last) as H.
  { intros [|[|d]]; reflexivity. }
  split; [exact H|]. split; [discriminate|].
  exact (X10_only_the_order_within_a_depth_matters _ _ H).
Defined.

(** X11.  An entity that has a descriptor and builds has a property, so it
    is never printed as [JsonObject]: that spelling is left to leaves
    declared [Object].  (For paths that use no name of
    [Object.prototype].) *)
Theorem X11_entity_with_descriptors_is_not_JsonObject
        (fs : list Field) (tree : AnyType) :
  fs <> [] ->
  forallb plain_path fs = true ->
  unflattenAndResolveTypes fs = Ok tree ->
  (exists properties b, tree = ObjectType properties b /\ properties <> [])
  /\ stringifyTypes tree <> "JsonObject"
  /\ render_entity fs <> Ok "JsonObject".
Proof.
  intros Hne _ Hrun.
  destruct fs as [|f fs]; [contradiction|].
  assert (exists s rest, segments f = s :: rest) as (s & rest & Hs).
  { pose proof (split_not_nil "."%char (valueName f)) as Hn. fold (segments f) in Hn.
    destruct (segments f) as [|s rest]; [contradiction|now exists s, rest]. }
  assert (is_Some (reach [s] tree)) as Hreach.
  { apply (build_reaches_prefixes (f :: fs) f); [now left|assumption|].
    rewrite Hs. now exists rest. }
  assert (is_object tree = true) as Hobj.
  { unfold unflattenAndResolveTypes in Hrun.
    refine (forEach_invariant add_item (fun t => is_object t = true)
              _ _ root tree eq_refl Hrun).
    intros x t t' _ Ht Hstep. rewrite add_item_walk in Hstep.
    now rewrite (walk_is_object _ _ _ _ _ Hstep). }
  destruct tree as [| |ps b|]; try discriminate.
  assert (ps <> []) as Hps.
  { intros ->. rewrite no_properties_reach in Hreach by reflexivity.
    destruct Hreach; discriminate. }
  assert (stringifyTypes (ObjectType ps b) <> "JsonObject") as Hprint.
  { intros H. apply JsonObject_inv in H as [b' H]. injection H as -> _.
    now apply Hps. }
  split; [now exists ps, b|]. split; [assumption|].
  unfold render_entity. rewrite Hrun. intros H. injection H as H. now apply Hprint.
Qed.

Lemma X11_entity_with_descriptors_is_not_JsonObject_witness :
  [Scenario.settings_leaf] <> []
  /\ forallb plain_path [Scenario.settings_leaf] = true
  /\ render_entity [Scenario.settings_leaf] <> Ok "JsonObject".
Proof.
  split; [discriminate|]. split; [reflexivity|].
  destruct (unflattenAndResolveTypes [Scenario.settings_leaf]) as [tree|] eqn:E;
    [|discriminate].
  apply (X11_entity_with_descriptors_is_not_JsonObject
           [Scenario.settings_leaf] tree); [discriminate|reflexivity|exact E].
Defined.

(** ** The generators and the rest of the script *)

Lemma mapM_throws {A B : Type} (f : A -> result B) (l : list A) :
  throws (mapM f l) = true <-> exists x, In x l /\ throws (f x) = true.
Proof.
  induction l as [|x l IH].
  - split; [discriminate|]. now intros (x & [] & _).
  - change (mapM f (x :: l)) with (y ← f x; k ← mapM f l; mret (y :: k)).
    destruct (f x) as [y|e] eqn:Ex.
    + change (throws (y ← Ok y; k ← mapM f l; mret (y :: k)))
        with (throws (k ← mapM f l; Ok (y :: k))).
      assert (throws (k ← mapM f l; Ok (y :: k)) = throws (mapM f l)) as ->
          by (now destruct (mapM f l)).
      rewrite IH. split.
      * intros (z & Hz & Ht). exists z. split; [now right|assumption].
      * intros (z & [<-|Hz] & Ht); [rewrite Ex in Ht; discriminate|].
        now exists z.
    + split; [|reflexivity]. intros _. exists x. split; [now left|].
      now rewrite Ex.
Qed.

Lemma line_throws (name : string) (prefix : string) (fs : list Field) :
  throws (if (List.length fs =? 0)%nat then Ok prefix
          else tree ← unflattenAndResolveTypes fs;
               Ok (name +:+ ": " +:+ stringifyTypes tree +:+ ";")) = true
  <-> fs <> [] /\ throws (unflattenAndResolveTypes fs) = true.
Proof.
  destruct fs as [|f fs]; simpl List.length; cbv iota beta.
  - split; [discriminate|]. now intros [H _].
  - change (S (List.length fs) =? 0)%nat with false. cbv iota.
    destruct (unflattenAndResolveTypes (f :: fs)); split; try discriminate;
      try reflexivity; try (now intros [_ H]). intros _. split; [discriminate|reflexivity].
Qed.

(** X12.  An error in one entity is an error of the whole interface: each
    of the three generators throws exactly when the build of one of its
    entities with descriptors throws, and then prints nothing for the other
    entities either. *)
Theorem X12_one_failing_entity_fails_the_generator
        (events : list OBSEvent) (requests : list OBSRequest) :
  (throws (generateObsEventTypes events) = true
   <-> exists ev, In ev events /\ dataFields ev <> []
                  /\ throws (unflattenAndResolveTypes (dataFields ev)) = true)
  /\ (throws (generateObsRequestTypes requests) = true
      <-> exists req, In req requests /\ requestFields req <> []
                      /\ throws (unflattenAndResolveTypes (requestFields req)) = true)
  /\ (throws (generateObsResponseTypes requests) = true
      <-> exists req, In req requests /\ responseFields req <> []
                      /\ throws (unflattenAndResolveTypes (responseFields req)) = true).
Proof.
  assert (forall A (f : A -> result string) (l : list A),
             throws (lines ← mapM f l; Ok (Js.join newline lines))
             = throws (mapM f l)) as Hjoin
      by (intros A f l; now destruct (mapM f l)).
  unfold generateObsEventTypes, generateObsRequestTypes, generateObsResponseTypes.
  rewrite !Hjoin, !mapM_throws. repeat split.
  - intros (ev & Hin & Ht). exists ev. split; [assumption|].
    now apply (line_throws (eventType ev)) in Ht.
  - intros (ev & Hin & Ht). exists ev. split; [assumption|].
    now apply (line_throws (eventType ev)).
  - intros (req & Hin & Ht). exists req. split; [assumption|].
    now apply (line_throws (requestType req)) in Ht.
  - intros (req & Hin & Ht). exists req. split; [assumption|].
    now apply (line_throws (requestType req)).
  - intros (req & Hin & Ht). exists req. split; [assumption|].
    now apply (line_throws (requestType req)) in Ht.
  - intros (req & Hin & Ht). exists req. split; [assumption|].
    now apply (line_throws (requestType req)).
Qed.

(** X13.  The repair of protocol.json leaves no request called
    [GetGroupItemList]; it keeps the number and the order of the requests,
    and every member of every request but that name; a request with another
    name is not touched, and repairing twice is repairing once. *)
Theorem X13_fix_renames_and_nothing_else (requests : list OBSRequest) :
  Forall (fun req => requestType req <> "GetGroupItemList") (fix_requests requests)
  /\ List.map (fun req => (description req, complexity req, rpcVersion req,
                           deprecated req, initialVersion req, category req,
                           requestFields req, responseFields req))
              (fix_requests requests)
     = List.map (fun req => (description req, complexity req, rpcVersion req,
                             deprecated req, initialVersion req, category req,
                             requestFields req, responseFields req))
                requests
  /\ (forall req, requestType req <> "GetGroupItemList" -> fix_request req = req)
  /\ (forall req, requestType req = "GetGroupItemList" ->
                  requestType (fix_request req) = "GetGroupSceneItemList")
  /\ fix_requests (fix_requests requests) = fix_requests requests.
Proof.
  assert (forall req, requestType req <> "GetGroupItemList" -> fix_request req = req)
    as Hother.
  { intros req H. unfold fix_request. apply String.eqb_neq in H. now rewrite H. }
  assert (forall req, requestType (fix_request req) <> "GetGroupItemList") as Hgone.
  { intros req. unfold fix_request.
    destruct (String.eqb_spec (requestType req) "GetGroupItemList");
      [discriminate|assumption]. }
  repeat split.
  - unfold fix_requests. apply List.Forall_map. apply List.Forall_forall.
    intros req _. apply Hgone.
  - unfold fix_requests. rewrite List.map_map. apply List.map_ext.
    intros req. unfold fix_request.
    now destruct (String.eqb (requestType req) "GetGroupItemList").
  - exact Hother.
  - intros req H. unfold fix_request. now rewrite H.
  - unfold fix_requests. rewrite List.map_map. apply List.map_ext.
    intros req. apply Hother, Hgone.
Qed.

Lemma ENUMS_other (enums : list EnumType) (table : gmap string (list EnumIdentifier))
      (t : string) :
  (forall e, In e enums -> enumType e <> t) ->
  fold_left (fun table e => <[enumType e := enumIdentifiers e]> table) enums table !! t
  = table !! t.
Proof.
  revert table. induction enums as [|e enums IH]; intros table H; simpl;
    [reflexivity|].
  rewrite IH by (intros e' He'; apply H; now right).
  apply lookup_insert_ne. apply H. now left.
Qed.

(** X14.  The table of the enums holds, under a name, the identifiers of
    the last element of [protocol.enums] that has this name, and nothing
    under a name that no element has.  (For names that are not names of
    [Object.prototype], which the table, an object, has in any case.) *)
Theorem X14_last_enum_of_a_name_is_kept
        (l1 : list EnumType) (e : EnumType) (l2 : list EnumType) (missing : string) :
  Js.is_prototype_name (enumType e) = false ->
  Js.is_prototype_name missing = false ->
  (forall e', In e' l2 -> enumType e' <> enumType e) ->
  (forall e', In e' (l1 ++ e :: l2) -> enumType e' <> missing) ->
  ENUMS (l1 ++ e :: l2) !! enumType e = Some (enumIdentifiers e)
  /\ ENUMS (l1 ++ e :: l2) !! missing = None.
Proof.
  intros _ _ Hlast Hmissing. unfold ENUMS. split.
  - rewrite fold_left_app. simpl. rewrite ENUMS_other by assumption.
    apply lookup_insert_eq.
  - now rewrite ENUMS_other.
Qed.

Lemma X14_last_enum_of_a_name_is_kept_witness :
  ENUMS Sample.enums_twice !! "WebSocketOpCode" = Some [Sample.op_hello]
  /\ ENUMS Sample.enums_twice !! "RequestBatchExecutionType" = None.
Proof.
  apply (X14_last_enum_of_a_name_is_kept
           [{| enumType := "WebSocketOpCode"; enumIdentifiers := [] |};
            {| enumType := "EventSubscription"; enumIdentifiers := [] |}]
           {| enumType := "WebSocketOpCode"; enumIdentifiers := [Sample.op_hello] |}
           [] "RequestBatchExecutionType"); try reflexivity.
  - intros e' [].
  - intros e' [<-|[<-|[<-|[]]]]; discriminate.
Defined.

(** X15.  The call override of a request takes no data ([requestData?:
    never]) exactly when the request is given the type [never] in
    [OBSRequestTypes]: the two generators agree on which requests have no
    parameters. *)
Theorem X15_never_agrees_with_the_call_override (req : OBSRequest) :
  requestData req = "requestData?: never"
  <-> request_line req = Ok (requestType req +:+ ": never;").
Proof.
  unfold requestData, request_line.
  destruct (requestFields req) as [|f fs] eqn:E; simpl List.length; cbv iota.
  - split; reflexivity.
  - change (0 <? S (List.length fs)) with true.
    change (S (List.length fs) =? 0)%nat with false. cbv iota.
    split; [discriminate|].
    destruct (unflattenAndResolveTypes (f :: fs)) as [tree|] eqn:Hrun;
      [|discriminate].
    intros H. exfalso. injection H as H.
    apply string_app_inv_head in H.
    assert (is_object tree = true) as Hobj.
    { unfold unflattenAndResolveTypes in Hrun.
      refine (forEach_invariant add_item (fun t => is_object t = true)
                _ _ root tree eq_refl Hrun).
      intros x t t' _ Ht Hstep. rewrite add_item_walk in Hstep.
      now rewrite (walk_is_object _ _ _ _ _ Hstep). }
    destruct tree as [| |ps b|]; try discriminate.
    destruct ps as [|kv ps]; [discriminate|].
    destruct (stringifyTypes_braces (kv :: ps) b) as [rest Hr]; [discriminate|].
    rewrite Hr in H. discriminate.
Qed.




